(** * Podcast transcriber API: JSON repair, quiz store and request pipeline

    A shallow embedding of [main.py] and [db.py].  Python [str] values are
    sequences of Unicode code points, exceptions are values of [exn], and
    the process state (quiz store, table, file system, console, mailbox)
    is threaded explicitly. *)

From Stdlib Require Import String Ascii NArith ZArith List Bool Lia.
From stdpp Require Import base option list gmap pretty.
From Equations Require Import Equations.
Import ListNotations.

Set Warnings "-register-all".
Local Open Scope N_scope.

(** ** Text *)

(** A Python [str]: one [N] per code point. *)
Definition char := N.
Definition text := list char.

(** The literal [s], one code point per character. *)
Definition cp (s : string) : text := map N_of_ascii (list_ascii_of_string s).

Definition comma : char := 44.
Definition rbrace : char := 125.
Definition rbracket : char := 93.
Definition dquote : char := 34.
Definition newline : char := 10.

(** [str.isspace] on one code point, which is also what [\s] matches in a
    [str] pattern: the ASCII controls 9-13 and 28-31, the space, and the
    Unicode white space above 127. *)
Definition isspace (c : char) : bool :=
  ((9 <=? c) && (c <=? 13)) || ((28 <=? c) && (c <=? 32))
  || (c =? 133) || (c =? 160) || (c =? 5760)
  || ((8192 <=? c) && (c <=? 8202))
  || (c =? 8232) || (c =? 8233) || (c =? 8239) || (c =? 8287) || (c =? 12288).

Fixpoint lstrip (s : text) : text :=
  match s with
  | c :: rest => if isspace c then lstrip rest else s
  | [] => []
  end.

Definition rstrip (s : text) : text := rev (lstrip (rev s)).

(** [s.strip()] *)
Definition strip (s : text) : text := rstrip (lstrip s).

(** [s.endswith(c)] for a one-character suffix. *)
Definition endswith (s : text) (c : char) : bool :=
  match last s with
  | Some d => d =? c
  | None => false
  end.

(** ** JSON repair *)

(** [[\]}]] *)
Definition is_closer (c : char) : bool := (c =? rbracket) || (c =? rbrace).

(** The group [(\s*[\]}])] matched at the head of [s]: the captured text
    and what follows it.  [\s*] is greedy, and since no white space is a
    bracket the first attempt is the only one. *)
Fixpoint match_group (s : text) : option (text * text) :=
  match s with
  | [] => None
  | c :: rest =>
      if isspace c then
        match match_group rest with
        | Some (g, tl) => Some (c :: g, tl)
        | None => None
        end
      else if is_closer c then Some ([c], rest)
      else None
  end.

(** The pattern [,(\s*[\]}])] matched at the head of [s]. *)
Definition match_trailing_comma (s : text) : option (text * text) :=
  match s with
  | c :: rest => if c =? comma then match_group rest else None
  | [] => None
  end.

(** A value together with the equation that names it. *)
Definition inspect {A} (a : A) : {b | a = b} := exist _ a eq_refl.

(** [re.sub(r",(\s*[\]}])", r"\1", s)]: at each position, leftmost first,
    a match is replaced by its group and the scan resumes after the match;
    without a match one character is copied. *)
Equations? re_sub (s : text) : text by wf (length s) lt :=
  re_sub [] := [];
  re_sub (c :: rest) with inspect (match_trailing_comma (c :: rest)) := {
    | exist _ (Some (g, after)) E => g ++ re_sub after
    | exist _ None _ => c :: re_sub rest }.
Proof.
  simpl in E. destruct (c =? comma); [|done].
  enough (∀ s g' a, match_group s = Some (g', a) → (length a < length s)%nat)
    as Hlt by (apply Hlt in E; simpl; lia).
  clear. induction s as [|d s IH]; intros g' a; simpl; [done|].
  destruct (isspace d).
  - destruct (match_group s) as [[g1 a1]|] eqn:E; [|done].
    intros [= <- <-]. specialize (IH _ _ eq_refl). lia.
  - destruct (is_closer d); [|done]. intros [= <- <-]. lia.
Qed.

(** [sanitize_json_output] *)
Definition sanitize_json_output (txt : text) : text :=
  let sanitized := re_sub (strip txt) in
  if negb (endswith sanitized rbrace) then sanitized ++ [rbrace] else sanitized.

(** ** JSON values and [json.loads] *)

(** What [json.loads] returns, as Python objects: [None], [bool], [int],
    [float] (kept as the literal that was read), [str], [list] and [dict].
    A [dict] keeps its keys in insertion order and holds each key once. *)
Inductive json : Type :=
| JNull
| JBool (b : bool)
| JInt (z : Z)
| JFloat (lexeme : text)
| JStr (s : text)
| JArr (items : list json)
| JObj (members : list (text * json)).

Definition dict := list (text * json).

Definition text_eqb (a b : text) : bool := bool_decide (a = b).

(** [k in d] *)
Fixpoint dict_mem (k : text) (d : dict) : bool :=
  match d with
  | [] => false
  | (k', _) :: d' => text_eqb k k' || dict_mem k d'
  end.

(** [d.get(k)] *)
Fixpoint dict_get (k : text) (d : dict) : option json :=
  match d with
  | [] => None
  | (k', v) :: d' => if text_eqb k k' then Some v else dict_get k d'
  end.

(** [d[k] = v]: an existing key keeps its place, a new one goes last. *)
Fixpoint dict_set (k : text) (v : json) (d : dict) : dict :=
  match d with
  | [] => [(k, v)]
  | (k', v') :: d' =>
      if text_eqb k k' then (k', v) :: d' else (k', v') :: dict_set k v d'
  end.

(** The decoder reads one character at a time.  [frame] is a container
    under construction; an object frame holds the key that waits for its
    value. *)
Inductive frame : Type :=
| FArr (items : list json)
| FObj (members : dict) (key : option text).

(** A piece of a string literal: a character, or a [\uXXXX] escape (two of
    which may form a surrogate pair). *)
Inductive sunit : Type :=
| Lit (c : char)
| Esc16 (n : N).

Inductive numstate : Type :=
| NMinus | NZero | NInt | NDot | NFrac | NExp | NExpSign | NExpDigits.

#[global] Instance numstate_eq_dec : EqDecision numstate.
Proof. solve_decision. Defined.

Inductive mode : Type :=
| MValue                               (* a value is expected *)
| MArrStart                            (* after [[]: a value or []] *)
| MObjStart                            (* after [{]: a key or [}] *)
| MKey                                 (* after [,] in an object: a key *)
| MColon                               (* after a key *)
| MAfter                               (* after a value inside a container *)
| MDone (v : json)                     (* after the top-level value *)
| MStr (acc : list sunit)              (* inside a string, [acc] reversed *)
| MEsc (acc : list sunit)              (* after a backslash *)
| MHex (acc : list sunit) (left : nat) (v : N)   (* inside [\uXXXX] *)
| MNum (ns : numstate) (lex : text)    (* inside a number, [lex] reversed *)
| MLit (v : json) (rest : text).       (* inside [true], [null], [NaN], ... *)

Definition state : Type := mode * list frame.

Definition is_json_ws (c : char) : bool :=
  (c =? 32) || (c =? 9) || (c =? 10) || (c =? 13).

Definition is_digit (c : char) : bool := (48 <=? c) && (c <=? 57).

Definition hex_val (c : char) : option N :=
  if is_digit c then Some (c - 48)
  else if (97 <=? c) && (c <=? 102) then Some (c - 87)
  else if (65 <=? c) && (c <=? 70) then Some (c - 55)
  else None.

(** The character an escape letter stands for ([u] is handled apart). *)
Definition escape_char (c : char) : option char :=
  if c =? 34 then Some 34 else if c =? 92 then Some 92
  else if c =? 47 then Some 47 else if c =? 98 then Some 8
  else if c =? 102 then Some 12 else if c =? 110 then Some 10
  else if c =? 114 then Some 13 else if c =? 116 then Some 9
  else None.

(** The text of a string literal: a high surrogate escape directly followed
    by a low surrogate escape is one code point. *)
Fixpoint decode_units (us : list sunit) : text :=
  match us with
  | [] => []
  | Lit c :: us' => c :: decode_units us'
  | Esc16 hi :: us' =>
      match us' with
      | Esc16 lo :: us'' =>
          if (55296 <=? hi) && (hi <=? 56319) && (56320 <=? lo) && (lo <=? 57343)
          then (65536 + ((hi - 55296) * 1024 + (lo - 56320))) :: decode_units us''
          else hi :: decode_units us'
      | _ => hi :: decode_units us'
      end
  end.

Definition N_of_digits (s : text) : N :=
  fold_left (fun a c => 10 * a + (c - 48)) s 0.

(** [int(s)] for an integer literal. *)
Definition int_of_text (s : text) : Z :=
  match s with
  | 45 :: ds => Z.opp (Z.of_N (N_of_digits ds))
  | _ => Z.of_N (N_of_digits s)
  end.

Definition num_step (ns : numstate) (c : char) : option numstate :=
  let e := (c =? 101) || (c =? 69) in
  match ns with
  | NMinus => if c =? 48 then Some NZero else if is_digit c then Some NInt else None
  | NZero => if c =? 46 then Some NDot else if e then Some NExp else None
  | NInt => if is_digit c then Some NInt else if c =? 46 then Some NDot
            else if e then Some NExp else None
  | NDot => if is_digit c then Some NFrac else None
  | NFrac => if is_digit c then Some NFrac else if e then Some NExp else None
  | NExp => if is_digit c then Some NExpDigits
            else if (c =? 43) || (c =? 45) then Some NExpSign else None
  | NExpSign => if is_digit c then Some NExpDigits else None
  | NExpDigits => if is_digit c then Some NExpDigits else None
  end.

Definition num_final (ns : numstate) : bool :=
  match ns with
  | NZero | NInt | NFrac | NExpDigits => true
  | _ => false
  end.

(** The number read: an [int] without fraction and exponent, else a
    [float]. *)
Definition num_value (ns : numstate) (lex : text) : json :=
  match ns with
  | NZero | NInt => JInt (int_of_text (rev lex))
  | _ => JFloat (rev lex)
  end.

(** A finished value goes to the enclosing container, or is the result. *)
Definition complete (v : json) (stk : list frame) : option state :=
  match stk with
  | [] => Some (MDone v, [])
  | FArr items :: stk' => Some (MAfter, FArr (v :: items) :: stk')
  | FObj d (Some k) :: stk' => Some (MAfter, FObj (dict_set k v d) None :: stk')
  | FObj _ None :: _ => None
  end.

Definition start_value (c : char) (stk : list frame) : option state :=
  if c =? dquote then Some (MStr [], stk)
  else if c =? 123 then Some (MObjStart, FObj [] None :: stk)
  else if c =? 91 then Some (MArrStart, FArr [] :: stk)
  else if c =? 45 then Some (MNum NMinus [c], stk)
  else if c =? 48 then Some (MNum NZero [c], stk)
  else if is_digit c then Some (MNum NInt [c], stk)
  else if c =? 116 then Some (MLit (JBool true) (cp "rue"), stk)
  else if c =? 102 then Some (MLit (JBool false) (cp "alse"), stk)
  else if c =? 110 then Some (MLit JNull (cp "ull"), stk)
  else if c =? 78 then Some (MLit (JFloat (cp "NaN")) (cp "aN"), stk)
  else if c =? 73 then Some (MLit (JFloat (cp "Infinity")) (cp "nfinity"), stk)
  else None.

(** After a value: white space, a separator or the closing bracket of the
    enclosing container; after the top-level value only white space. *)
Definition after_value (st : state) (c : char) : option state :=
  if is_json_ws c then Some st
  else match st with
       | (MAfter, FArr items :: stk') =>
           if c =? comma then Some (MValue, FArr items :: stk')
           else if c =? rbracket then complete (JArr (rev items)) stk'
           else None
       | (MAfter, FObj d None :: stk') =>
           if c =? comma then Some (MKey, FObj d None :: stk')
           else if c =? rbrace then complete (JObj d) stk'
           else None
       | _ => None
       end.

(** The closing quote: the string is the key of the enclosing object when
    that object waits for one, and a value otherwise. *)
Definition end_string (acc : list sunit) (stk : list frame) : option state :=
  let s := decode_units (rev acc) in
  match stk with
  | FObj d None :: stk' => Some (MColon, FObj d (Some s) :: stk')
  | _ => complete (JStr s) stk
  end.

Definition step (st : state) (c : char) : option state :=
  let '(m, stk) := st in
  match m with
  | MValue => if is_json_ws c then Some st else start_value c stk
  | MArrStart =>
      if is_json_ws c then Some st
      else if c =? rbracket then
        match stk with
        | FArr _ :: stk' => complete (JArr []) stk'
        | _ => None
        end
      else start_value c stk
  | MObjStart =>
      if is_json_ws c then Some st
      else if c =? rbrace then
        match stk with
        | FObj _ _ :: stk' => complete (JObj []) stk'
        | _ => None
        end
      else if c =? dquote then Some (MStr [], stk)
      else None
  | MKey =>
      if is_json_ws c then Some st
      else if c =? dquote then Some (MStr [], stk)
      else None
  | MColon =>
      if is_json_ws c then Some st
      else if c =? 58 then Some (MValue, stk)
      else None
  | MAfter | MDone _ => after_value st c
  | MStr acc =>
      if c =? dquote then end_string acc stk
      else if c =? 92 then Some (MEsc acc, stk)
      else if c <? 32 then None
      else Some (MStr (Lit c :: acc), stk)
  | MEsc acc =>
      if c =? 117 then Some (MHex acc 4%nat 0, stk)
      else match escape_char c with
           | Some d => Some (MStr (Lit d :: acc), stk)
           | None => None
           end
  | MHex acc n v =>
      match hex_val c, n with
      | Some h, 1%nat => Some (MStr (Esc16 (16 * v + h) :: acc), stk)
      | Some h, S n' => Some (MHex acc n' (16 * v + h), stk)
      | _, _ => None
      end
  | MNum ns lex =>
      match num_step ns c with
      | Some ns' => Some (MNum ns' (c :: lex), stk)
      | None =>
          if (c =? 73) && bool_decide (ns = NMinus) then
            Some (MLit (JFloat (cp "-Infinity")) (cp "nfinity"), stk)
          else if num_final ns then
            match complete (num_value ns lex) stk with
            | Some st' => after_value st' c
            | None => None
            end
          else None
      end
  | MLit v rest =>
      match rest with
      | r :: rest' =>
          if c =? r then
            match rest' with
            | [] => complete v stk
            | _ => Some (MLit v rest', stk)
            end
          else None
      | [] => None
      end
  end.

Fixpoint run (st : state) (s : text) : option state :=
  match s with
  | [] => Some st
  | c :: rest =>
      match step st c with
      | Some st' => run st' rest
      | None => None
      end
  end.

(** The value at the end of the text. *)
Definition finish (st : state) : option json :=
  match st with
  | (MDone v, _) => Some v
  | (MNum ns lex, []) => if num_final ns then Some (num_value ns lex) else None
  | _ => None
  end.

(** [json.loads(s)]: the value, or [None] for [JSONDecodeError].  The
    grammar is RFC 8259 with CPython's additions [NaN], [Infinity] and
    [-Infinity]; white space is space, tab, line feed and carriage return;
    control characters are refused inside strings. *)
Definition json_loads (s : text) : option json :=
  match run (MValue, []) s with
  | Some st => finish st
  | None => None
  end.

(** The text is valid JSON. *)
Definition json_valid (s : text) : bool := bool_decide (is_Some (json_loads s)).

(** ** Python objects and exceptions *)

(** An [HTTPException] carries its status and its detail; a detail built
    as [f"...{str(e)}"] is kept as the literal part and the exception [e]. *)
Inductive exn : Type :=
| JSONDecodeError
| TypeError
| KeyError (key : text)
| ValueError
| AttributeError
| ServiceError (msg : text)    (* raised by Whisper, the inference client,
                                  SMTP, SQLite or the file system *)
| HTTPException (status : nat) (detail : text) (cause : option exn).

Inductive result (A : Type) : Type :=
| Ok (a : A)
| Raise (e : exn).
Arguments Ok {A} a.
Arguments Raise {A} e.

Fixpoint text_prefixb (p s : text) : bool :=
  match p, s with
  | [], _ => true
  | c :: p', d :: s' => (c =? d) && text_prefixb p' s'
  | _ :: _, [] => false
  end.

(** [p in s] for two strings. *)
Fixpoint text_infixb (p s : text) : bool :=
  text_prefixb p s ||
  match s with
  | [] => false
  | _ :: s' => text_infixb p s'
  end.

Fixpoint take_while {A} (f : A → bool) (l : list A) : list A :=
  match l with
  | x :: l' => if f x then x :: take_while f l' else []
  | [] => []
  end.

Fixpoint drop_while {A} (f : A → bool) (l : list A) : list A :=
  match l with
  | x :: l' => if f x then drop_while f l' else l
  | [] => []
  end.

(** [float(lexeme) == 0.0]: the mantissa is zero, or the value is at most
    [2^-1075] in magnitude and rounds to zero. *)
Definition float_is_zero (lexeme : text) : bool :=
  let body := match lexeme with 45 :: r => r | _ => lexeme end in
  match body with
  | 78 :: _ | 73 :: _ => false
  | _ =>
      let not_e := fun c => negb ((c =? 101) || (c =? 69)) in
      let not_dot := fun c => negb (c =? 46) in
      let mant := take_while not_e body in
      let ex := drop 1 (drop_while not_e body) in
      let frac := drop 1 (drop_while not_dot mant) in
      let m := N_of_digits (take_while not_dot mant ++ frac) in
      let e := match ex with
               | 43 :: ds => Z.of_N (N_of_digits ds)
               | _ => int_of_text ex
               end in
      let k := (e - Z.of_nat (length frac))%Z in
      (m =? 0) || ((k <? 0)%Z && (m * 2 ^ 1075 <=? 10 ^ Z.to_N (- k)))
  end.

(** [not v] *)
Definition py_not (v : json) : bool :=
  match v with
  | JNull => true
  | JBool b => negb b
  | JInt z => (z =? 0)%Z
  | JFloat lexeme => float_is_zero lexeme
  | JStr s => bool_decide (s = [])
  | JArr items => match items with [] => true | _ => false end
  | JObj d => match d with [] => true | _ => false end
  end.

(** [k in v] for a string [k] *)
Definition py_contains (k : text) (v : json) : result bool :=
  match v with
  | JObj d => Ok (dict_mem k d)
  | JArr items =>
      Ok (existsb (fun x => match x with JStr s => text_eqb k s | _ => false end) items)
  | JStr s => Ok (text_infixb k s)
  | _ => Raise TypeError
  end.

(** [v[k]] for a string [k] *)
Definition py_getitem (v : json) (k : text) : result json :=
  match v with
  | JObj d => match dict_get k d with
              | Some x => Ok x
              | None => Raise (KeyError k)
              end
  | _ => Raise TypeError
  end.

(** [v[k] = x] for a string [k] *)
Definition py_setitem (v : json) (k : text) (x : json) : result json :=
  match v with
  | JObj d => Ok (JObj (dict_set k x d))
  | _ => Raise TypeError
  end.

(** [len(v)] *)
Definition py_len (v : json) : result nat :=
  match v with
  | JStr s => Ok (length s)
  | JArr items => Ok (length items)
  | JObj d => Ok (length d)
  | _ => Raise TypeError
  end.

(** [v[:n]]; a [dict] refuses a slice ([TypeError] up to Python 3.11,
    [KeyError] since). *)
Definition py_slice_to (n : nat) (v : json) : result json :=
  match v with
  | JStr s => Ok (JStr (take n s))
  | JArr items => Ok (JArr (take n items))
  | _ => Raise TypeError
  end.

(** [str(n)] *)
Definition py_str (n : nat) : text := cp (pretty n).

(** ** The process and its collaborators *)

Inductive step_kind : Type :=
| Transcription | Summarization | TakeawayExtraction | QuizGeneration
| Notification | Persistence.

#[global] Instance step_kind_eq_dec : EqDecision step_kind.
Proof. solve_decision. Defined.

(** A call to an external service. *)
Inductive call : Type :=
| Transcribe (path : text)
| Chat (purpose : step_kind) (prompt : text)
| SendMail (subject body : text)
| Insert (transcript summary takeaways quiz : text).

Definition step_of (c : call) : step_kind :=
  match c with
  | Transcribe _ => Transcription
  | Chat purpose _ => purpose
  | SendMail _ _ => Notification
  | Insert _ _ _ _ => Persistence
  end.

(** A row of the table [podcast_data]. *)
Record row : Type := {
  row_id : Z;
  row_transcript : text;
  row_summary : text;
  row_takeaways : text;
  row_quiz : text
}.

(** What the services answer, and the library functions that stay
    abstract: the serialiser [json.dumps] and the Unicode case mapping
    [str.lower]. *)
Record env : Type := {
  whisper_transcribe : text → result text;
  chat_completion : text → result text;
  smtp_sendmail : text → text → result unit;
  sqlite_insert : text → text → text → text → result unit;
  write_upload : text → text → result unit;
  json_dumps : json → text;
  str_lower : text → text
}.

(** The state of the process and of its surroundings.  [calls] lists the
    calls to external services, oldest first, each with its success. *)
Record world : Type := {
  quiz_storage : gmap text json;
  podcast_data : list row;
  files : gmap text text;
  stdout : list text;
  calls : list (call * bool)
}.

Definition M (A : Type) : Type := world → result A * world.

Definition ret {A} (a : A) : M A := fun w => (Ok a, w).
Definition raise {A} (e : exn) : M A := fun w => (Raise e, w).
Definition bind {A B} (m : M A) (k : A → M B) : M B :=
  fun w => match m w with
           | (Ok a, w') => k a w'
           | (Raise e, w') => (Raise e, w')
           end.
Definition lift {A} (r : result A) : M A := fun w => (r, w).

(** [try: m except Exception as e: h e] *)
Definition try_except {A} (m : M A) (h : exn → M A) : M A :=
  fun w => match m w with
           | (Ok a, w') => (Ok a, w')
           | (Raise e, w') => h e w'
           end.

(** [try: m finally: f] *)
Definition try_finally {A} (m : M A) (f : M unit) : M A :=
  fun w => let '(r, w') := m w in
           match f w' with
           | (Ok _, w'') => (r, w'')
           | (Raise e, w'') => (Raise e, w'')
           end.

Notation "'let*' x ':=' m 'in' k" := (bind m (fun x => k))
  (at level 10, x name, m at level 100, k at level 200, only parsing).
Notation "m ';;' k" := (bind m (fun _ => k))
  (at level 100, k at level 200, right associativity, only parsing).

Definition is_ok {A} (r : result A) : bool :=
  match r with Ok _ => true | Raise _ => false end.

(** An external call: the answer comes from the environment and the call
    is recorded. *)
Definition external {A} (c : call) (answer : result A) : M A :=
  fun w => (answer,
            {| quiz_storage := quiz_storage w; podcast_data := podcast_data w;
               files := files w; stdout := stdout w;
               calls := calls w ++ [(c, is_ok answer)] |}).

(** [print(line)] *)
Definition print (line : text) : M unit :=
  fun w => (Ok tt,
            {| quiz_storage := quiz_storage w; podcast_data := podcast_data w;
               files := files w; stdout := stdout w ++ [line];
               calls := calls w |}).

Definition set_quiz_storage (f : gmap text json → gmap text json) : M unit :=
  fun w => (Ok tt,
            {| quiz_storage := f (quiz_storage w); podcast_data := podcast_data w;
               files := files w; stdout := stdout w; calls := calls w |}).

Definition set_podcast_data (f : list row → list row) : M unit :=
  fun w => (Ok tt,
            {| quiz_storage := quiz_storage w; podcast_data := f (podcast_data w);
               files := files w; stdout := stdout w; calls := calls w |}).

Definition set_files (f : gmap text text → gmap text text) : M unit :=
  fun w => (Ok tt,
            {| quiz_storage := quiz_storage w; podcast_data := podcast_data w;
               files := f (files w); stdout := stdout w; calls := calls w |}).

(** ** [db.py] *)

Inductive sqlval : Type :=
| SqlInteger (z : Z)
| SqlText (t : text).

(** [AUTOINCREMENT]: one more than the largest id in use. *)
Definition next_row_id (tbl : list row) : Z :=
  (1 + foldr (fun r m => Z.max (row_id r) m) 0 tbl)%Z.

(** [save_podcast_data] *)
Definition save_podcast_data (E : env) (transcript summary : text)
    (takeaways : list text) (quiz : json) : M unit :=
  let tk := json_dumps E (JArr (map JStr takeaways)) in
  let qz := json_dumps E quiz in
  external (Insert transcript summary tk qz)
           (sqlite_insert E transcript summary tk qz) ;;
  set_podcast_data (fun tbl =>
    tbl ++ [{| row_id := next_row_id tbl; row_transcript := transcript;
               row_summary := summary; row_takeaways := tk; row_quiz := qz |}]).

Fixpoint insert_desc (r : row) (l : list row) : list row :=
  match l with
  | [] => [r]
  | x :: l' => if (row_id x <? row_id r)%Z then r :: l else x :: insert_desc r l'
  end.

(** [ORDER BY id DESC] *)
Definition order_by_id_desc (tbl : list row) : list row :=
  foldr insert_desc [] tbl.

(** [a, b = t] *)
Definition unpack2 (t : list sqlval) : result (sqlval * sqlval) :=
  match t with
  | [a; b] => Ok (a, b)
  | _ => Raise ValueError
  end.

(** [json.loads] of a fetched column. *)
Definition loads_column (v : sqlval) : result json :=
  match v with
  | SqlText t => match json_loads t with
                 | Some j => Ok j
                 | None => Raise JSONDecodeError
                 end
  | SqlInteger _ => Raise TypeError
  end.

(** [{"summary": ..., "takeaways": ...}] *)
Record podcast : Type := {
  summary : sqlval;
  takeaways : json
}.

Definition podcast_of (t : list sqlval) : result podcast :=
  match unpack2 t with
  | Ok (s, tk) => match loads_column tk with
                  | Ok j => Ok {| summary := s; takeaways := j |}
                  | Raise e => Raise e
                  end
  | Raise e => Raise e
  end.

(** [get_latest_podcast_data]:
    [SELECT summary, takeaways ... ORDER BY id DESC LIMIT 1] *)
Definition get_latest_podcast_data (tbl : list row) : result (option podcast) :=
  match order_by_id_desc tbl with
  | r :: _ =>
      match podcast_of [SqlText (row_summary r); SqlText (row_takeaways r)] with
      | Ok p => Ok (Some p)
      | Raise e => Raise e
      end
  | [] => Ok None
  end.

(** The loop of [get_all_podcasts] over the fetched tuples. *)
Fixpoint collect_podcasts (results : list (list sqlval)) (podcast_data : list podcast)
    : result (list podcast) :=
  match results with
  | [] => Ok podcast_data
  | t :: results' =>
      match podcast_of t with
      | Ok p => collect_podcasts results' (podcast_data ++ [p])
      | Raise e => Raise e
      end
  end.

(** [get_all_podcasts]:
    [SELECT id, summary, takeaways ... ORDER BY id DESC], each tuple then
    unpacked as [summary, takeaways]. *)
Definition get_all_podcasts (tbl : list row) : result (list podcast) :=
  let results :=
    map (fun r => [SqlInteger (row_id r); SqlText (row_summary r);
                   SqlText (row_takeaways r)])
        (order_by_id_desc tbl) in
  collect_podcasts results [].

(** [get_podcast_by_id]:
    [SELECT summary, takeaways ... WHERE id = ?] *)
Definition get_podcast_by_id (tbl : list row) (podcast_id : Z) : result (option podcast) :=
  match filter (fun r => bool_decide (row_id r = podcast_id)) tbl with
  | r :: _ =>
      match podcast_of [SqlText (row_summary r); SqlText (row_takeaways r)] with
      | Ok p => Ok (Some p)
      | Raise e => Raise e
      end
  | [] => Ok None
  end.

(** ** [email_config.py] and [main.py] *)

(** [send_email] *)
Definition send_email (E : env) (subject body : text) : M unit :=
  external (SendMail subject body) (smtp_sendmail E subject body).

(** [transcribe_audio]: Whisper reads the file at [audio_file_path]. *)
Definition transcribe_audio (E : env) (audio_file_path : text) : M text :=
  fun w =>
    external (Transcribe audio_file_path)
      (match files w !! audio_file_path with
       | Some content => whisper_transcribe E content
       | None => Raise (ServiceError (cp "No such file"))
       end) w.

Definition summary_prompt (transcript : text) : text :=
  cp "You are a helpful assistant who summarizes podcasts. "
  ++ cp "Summarize the following podcast transcript in a concise and informative manner:"
  ++ [newline; newline] ++ transcript.

(** [generate_summary] *)
Definition generate_summary (E : env) (transcript : text) : M text :=
  let prompt := summary_prompt transcript in
  external (Chat Summarization prompt) (chat_completion E prompt).

Definition takeaways_prompt (transcript : text) : text :=
  cp "You are an AI that extracts key insights from podcast transcripts." ++ [newline]
  ++ cp "Analyze the following transcript and provide **3 to 5 key takeaways** in bullet points."
  ++ [newline]
  ++ cp "Ensure the takeaways are clear, concise, and informative." ++ [newline; newline]
  ++ cp "Transcript:" ++ [newline] ++ transcript ++ [newline; newline]
  ++ cp "Your response should be in the format:" ++ [newline]
  ++ cp "- Key takeaway 1" ++ [newline]
  ++ cp "- Key takeaway 2" ++ [newline]
  ++ cp "- Key takeaway 3" ++ [newline]
  ++ cp "- (Optional) Key takeaway 4" ++ [newline]
  ++ cp "- (Optional) Key takeaway 5".

(** [s.split(sep)] for a one-character separator. *)
Fixpoint split_on (sep : char) (s : text) : list text :=
  match s with
  | [] => [[]]
  | c :: rest =>
      if c =? sep then [] :: split_on sep rest
      else match split_on sep rest with
           | l :: ls => (c :: l) :: ls
           | [] => [[c]]
           end
  end.

(** [s.strip(chars)] *)
Definition strip_chars (chars : text) (s : text) : text :=
  let inb := fun c => existsb (N.eqb c) chars in
  rev (drop_while inb (rev (drop_while inb s))).

(** [generate_key_takeaways] *)
Definition generate_key_takeaways (E : env) (transcript : text) : M (list text) :=
  let prompt := takeaways_prompt transcript in
  let* content := external (Chat TakeawayExtraction prompt) (chat_completion E prompt) in
  let output_text := strip content in
  ret (map (strip_chars (cp "- "))
           (filter (fun line => text_prefixb (cp "-") line = true)
                   (split_on newline output_text))).

Definition quiz_prompt (txt : text) : text :=
  cp "You are a helpful assistant. Create exactly one quiz question from the text below."
  ++ [newline; newline]
  ++ cp "Requirements:" ++ [newline]
  ++ cp "1. Provide EXACTLY 4 answer choices." ++ [newline]
  ++ cp "2. Return ONLY valid JSON." ++ [newline]
  ++ cp "3. Use the keys: question, options, correct_answer." ++ [newline]
  ++ cp "4. DO NOT include trailing commas or any extra text." ++ [newline]
  ++ cp "5. DO NOT omit the closing brace." ++ [newline; newline]
  ++ cp "Text:" ++ [newline] ++ txt ++ [newline; newline]
  ++ cp "Your entire response MUST be valid JSON in this exact format:" ++ [newline]
  ++ cp "```" ++ [newline]
  ++ cp "{" ++ [newline]
  ++ cp "  " ++ [dquote] ++ cp "question" ++ [dquote] ++ cp ": "
     ++ [dquote] ++ cp "..." ++ [dquote] ++ cp "," ++ [newline]
  ++ cp "  " ++ [dquote] ++ cp "options" ++ [dquote] ++ cp ": ["
     ++ [dquote] ++ cp "..." ++ [dquote] ++ cp ", "
     ++ [dquote] ++ cp "..." ++ [dquote] ++ cp ", "
     ++ [dquote] ++ cp "..." ++ [dquote] ++ cp ", "
     ++ [dquote] ++ cp "..." ++ [dquote] ++ cp "]," ++ [newline]
  ++ cp "  " ++ [dquote] ++ cp "correct_answer" ++ [dquote] ++ cp ": "
     ++ [dquote] ++ cp "..." ++ [dquote] ++ [newline]
  ++ cp "}" ++ [newline]
  ++ cp "```" ++ [newline].

(** [try: m except json.JSONDecodeError: h] *)
Definition except_JSONDecodeError {A} (m : M A) (h : M A) : M A :=
  fun w => match m w with
           | (Raise JSONDecodeError, w') => h w'
           | r => r
           end.

(** The body of the [try] in [generate_quiz_question]. *)
Definition parse_quiz (sanitized_output : text) : result json :=
  match json_loads sanitized_output with
  | None => Raise JSONDecodeError
  | Some quiz =>
      match py_contains (cp "options") quiz with
      | Raise e => Raise e
      | Ok false => Ok quiz
      | Ok true =>
          match py_getitem quiz (cp "options") with
          | Raise e => Raise e
          | Ok options =>
              match py_len options with
              | Raise e => Raise e
              | Ok n =>
                  if (4 <? n)%nat then
                    match py_slice_to 4 options with
                    | Raise e => Raise e
                    | Ok first4 => py_setitem quiz (cp "options") first4
                    end
                  else Ok quiz
              end
          end
      end
  end.

(** [generate_quiz_question] *)
Definition generate_quiz_question (E : env) (txt : text) : M json :=
  let prompt := quiz_prompt txt in
  let* content := external (Chat QuizGeneration prompt) (chat_completion E prompt) in
  let output_text := strip content in
  let sanitized_output := sanitize_json_output output_text in
  except_JSONDecodeError
    (lift (parse_quiz sanitized_output))
    (print (cp "Error decoding response: " ++ output_text) ;;
     ret (JObj [])).

(** [send_detail] *)
Definition send_detail (E : env) (transcript summary : text) : M unit :=
  let email_subject := cp "Detail from Podcast" in
  let email_body :=
    cp "Hello there! " ++ [127774; newline; newline; 10145; 65039]
    ++ cp " Transcript:" ++ [newline; newline] ++ transcript
    ++ [newline; newline; 10145; 65039] ++ cp " Summary:" ++ [newline; newline]
    ++ summary ++ [newline; newline] ++ cp "Have a great day! " ++ [128640] in
  send_email E email_subject email_body ;;
  print ([9989] ++ cp " Detail from Podcast sent.").

Definition UPLOAD_DIR : text := cp "uploads".

(** [os.path.join(UPLOAD_DIR, filename)] *)
Definition upload_path (filename : text) : text :=
  match filename with
  | 47 :: _ => filename
  | _ => UPLOAD_DIR ++ [47] ++ filename
  end.

(** The body of a successful [/process-podcast] response. *)
Record processed : Type := {
  message : text;
  p_transcript : text;
  p_summary : text;
  p_takeaways : list text;
  p_quiz : json
}.

(** [upload_audio] *)
Definition upload_audio (E : env) (filename content : text) : M processed :=
  let file_path := upload_path filename in
  try_finally
    (try_except
       (lift (write_upload E file_path content) ;;
        set_files (insert file_path content) ;;
        let* transcript := transcribe_audio E file_path in
        let* summary := generate_summary E transcript in
        let* takeaways := generate_key_takeaways E transcript in
        let* quiz := generate_quiz_question E transcript in
        send_detail E (cp "Podcast summary") summary ;;
        save_podcast_data E transcript summary takeaways quiz ;;
        ret {| message := cp "Podcast processed and saved successfully!";
               p_transcript := transcript; p_summary := summary;
               p_takeaways := takeaways; p_quiz := quiz |})
       (fun e => raise (HTTPException 500 (cp "Processing failed: ") (Some e))))
    (fun w => match files w !! file_path with
              | Some _ => set_files (delete file_path) w
              | None => (Ok tt, w)
              end).

(** [api_quiz]: the identifier and the quiz of the response. *)
Definition api_quiz (E : env) (transcript : text) : M (text * json) :=
  try_except
    (let* quiz := generate_quiz_question E transcript in
     if py_not quiz then
       raise (HTTPException 500 (cp "Failed to generate quiz question.") None)
     else
       fun w =>
         let quiz_id := py_str (size (quiz_storage w) + 1) in
         (set_quiz_storage (insert quiz_id quiz) ;;
          ret (quiz_id, quiz)) w)
    (fun e => raise (HTTPException 500 (cp "Quiz generation failed: ") (Some e))).

(** The body of a [/quiz/submit-answer] response. *)
Record verdict : Type := {
  v_quiz_id : text;
  correct : bool;
  correct_answer : json
}.

(** [v.strip().lower()], an [AttributeError] unless [v] is a string. *)
Definition strip_lower (E : env) (v : json) : result text :=
  match v with
  | JStr s => Ok (str_lower E (strip s))
  | _ => Raise AttributeError
  end.

(** [submit_quiz_answer] *)
Definition submit_quiz_answer (E : env) (quiz_id answer : text) : M verdict :=
  fun w =>
    match quiz_storage w !! quiz_id with
    | None => raise (HTTPException 404 (cp "Quiz not found.") None) w
    | Some quiz =>
        if py_not quiz then raise (HTTPException 404 (cp "Quiz not found.") None) w
        else
          (let given := str_lower E (strip answer) in
           let* stored := lift (py_getitem quiz (cp "correct_answer")) in
           let* expected := lift (strip_lower E stored) in
           let is_correct := text_eqb given expected in
           let* canonical := lift (py_getitem quiz (cp "correct_answer")) in
           ret {| v_quiz_id := quiz_id; correct := is_correct;
                  correct_answer := canonical |}) w
    end.

(** The process starts with an empty store. *)
Definition initial_world : world :=
  {| quiz_storage := ∅; podcast_data := []; files := ∅; stdout := []; calls := [] |}.

(** ** Sessions *)

(** The requests the three modelled endpoints serve, one after the other. *)
Inductive request : Type :=
| GenerateQuiz (transcript : text)
| SubmitAnswer (quiz_id answer : text)
| ProcessPodcast (filename content : text).

Inductive response : Type :=
| QuizResponse (r : result (text * json))
| VerdictResponse (r : result verdict)
| ProcessedResponse (r : result processed).

Definition handle (E : env) (req : request) (w : world) : response * world :=
  match req with
  | GenerateQuiz transcript =>
      let '(r, w') := api_quiz E transcript w in (QuizResponse r, w')
  | SubmitAnswer quiz_id answer =>
      let '(r, w') := submit_quiz_answer E quiz_id answer w in (VerdictResponse r, w')
  | ProcessPodcast filename content =>
      let '(r, w') := upload_audio E filename content w in (ProcessedResponse r, w')
  end.

(** A session: each request with what the services answer while it is
    served. *)
Fixpoint serve (session : list (env * request)) (w : world) : list response * world :=
  match session with
  | [] => ([], w)
  | (E, req) :: session' =>
      let '(r, w') := handle E req w in
      let '(rs, w'') := serve session' w' in
      (r :: rs, w'')
  end.

(** The registrations among the responses: identifier and record. *)
Definition issued (rs : list response) : list (text * json) :=
  omap (fun r => match r with QuizResponse (Ok p) => Some p | _ => None end) rs.

(** ** The pipeline of [/process-podcast] *)

(** The steps in the order [upload_audio] takes them. *)
Definition pipeline : list step_kind :=
  [Transcription; Summarization; TakeawayExtraction; QuizGeneration;
   Notification; Persistence].

(** The order as the specification words it: persistence, then
    notification. *)
Definition spec_pipeline : list step_kind :=
  [Transcription; Summarization; TakeawayExtraction; QuizGeneration;
   Persistence; Notification].

Definition steps (tr : list (call * bool)) : list step_kind :=
  map (fun c => step_of c.1) tr.

(** ** Notions used by the proofs *)

(** White space and a closing bracket follow. *)
Definition closer_follows (s : text) : bool :=
  match match_group s with Some _ => true | None => false end.

(** [del s t]: [t] is [s] without some of the commas that stand before
    white space and a closing bracket. *)
Inductive del : text → text → Prop :=
| del_nil : del [] []
| del_keep c s t : del s t → del (c :: s) (c :: t)
| del_drop s t : closer_follows s = true → del s t → del (comma :: s) t.

(** A decoder state without the values read so far. *)
Definition shape_frame (f : frame) : frame :=
  match f with
  | FArr _ => FArr []
  | FObj _ k => FObj [] (match k with Some _ => Some [] | None => None end)
  end.

Definition shape_mode (m : mode) : mode :=
  match m with
  | MDone _ => MDone JNull
  | MStr _ => MStr []
  | MEsc _ => MEsc []
  | MHex _ n _ => MHex [] n 0
  | MNum ns _ => MNum ns []
  | MLit _ r => MLit JNull r
  | m => m
  end.

Definition shape (st : state) : state := (shape_mode st.1, map shape_frame st.2).

(** From state [st] the text [s] is read to the end and yields a value. *)
Definition accepts (st : state) (s : text) : Prop :=
  is_Some (match run st s with Some st' => finish st' | None => None end).

(** What is left of a literal consists of letters. *)
Definition lit_ok (st : state) : Prop :=
  match st.1 with
  | MLit _ rest => Forall (fun c => 65 ≤ c ≤ 122) rest
  | _ => True
  end.

Definition expects_item (st : state) : Prop := st.1 = MValue ∨ st.1 = MKey.

(** The identifiers in the store are [str(1)], ..., [str(size)]. *)
Definition store_wf (m : gmap text json) : Prop :=
  ∀ k, is_Some (m !! k) ↔ ∃ i : nat, (1 ≤ i ≤ size m)%nat ∧ k = py_str i.

(** ** Sample surroundings *)

(** [str.lower] on ASCII text. *)
Definition ascii_lower (s : text) : text :=
  map (fun c => if (65 <=? c) && (c <=? 90) then c + 32 else c) s.

(** Services that all succeed; the model answers every prompt with
    [reply]. *)
Definition env_replying (reply : text) : env :=
  {| whisper_transcribe := fun _ => Ok (cp "hello world");
     chat_completion := fun _ => Ok reply;
     smtp_sendmail := fun _ _ => Ok tt;
     sqlite_insert := fun _ _ _ _ => Ok tt;
     write_upload := fun _ _ => Ok tt;
     json_dumps := fun _ => cp "{}";
     str_lower := ascii_lower |}.

(** [s] with every apostrophe turned into a double quote. *)
Definition dq (s : string) : text :=
  map (fun c => if c =? 39 then dquote else c) (cp s).

(** Services of which only the INSERT fails. *)
Definition env_insert_failing : env :=
  {| whisper_transcribe := fun _ => Ok (cp "hello world");
     chat_completion := fun _ => Ok (cp "{}");
     smtp_sendmail := fun _ _ => Ok tt;
     sqlite_insert := fun _ _ _ _ => Raise (ServiceError (cp "database is locked"));
     write_upload := fun _ _ => Ok tt;
     json_dumps := fun _ => cp "{}";
     str_lower := ascii_lower |}.

(** A store that holds one record under ["1"]. *)
Definition world_with_quiz (quiz : json) : world :=
  {| quiz_storage := {[ cp "1" := quiz ]}; podcast_data := []; files := ∅;
     stdout := []; calls := [] |}.

(** One saved podcast. *)
Definition one_row : list row :=
  [{| row_id := 1; row_transcript := cp "hello world"; row_summary := cp "greeting";
      row_takeaways := dq "['be kind']"; row_quiz := cp "{}" |}].

(** ** Further endpoints of [main.py] *)

(** [summarize_podcast] *)
Definition summarize_podcast (E : env) (transcript : text) : M text :=
  try_except
    (generate_summary E transcript)
    (fun e => raise (HTTPException 500 (cp "Summary generation failed: ") (Some e))).

(** [get_key_takeaways] *)
Definition get_key_takeaways (E : env) (transcript : text) : M (list text) :=
  try_except
    (let* takeaways := generate_key_takeaways E transcript in
     match takeaways with
     | [] => raise (HTTPException 500 (cp "Failed to extract key takeaways.") None)
     | _ => ret takeaways
     end)
    (fun e => raise (HTTPException 500 (cp "Error: ") (Some e))).

(** [get_latest_podcast]; a fetched podcast is a [dict] of two keys and so
    never empty. *)
Definition get_latest_podcast : M podcast :=
  try_except
    (let* found := (fun w => lift (get_latest_podcast_data (podcast_data w)) w) in
     match found with
     | None => raise (HTTPException 404 (cp "Podcast not found.") None)
     | Some p => ret p
     end)
    (fun e => raise (HTTPException 500 (cp "Error: ") (Some e))).

(** [get_podcast_by_id] of [main.py], the endpoint over [db.get_podcast_by_id]. *)
Definition get_podcast_by_id_endpoint (podcast_id : Z) : M podcast :=
  try_except
    (let* found := (fun w => lift (get_podcast_by_id (podcast_data w) podcast_id) w) in
     match found with
     | None => raise (HTTPException 404 (cp "Podcast not found.") None)
     | Some p => ret p
     end)
    (fun e => raise (HTTPException 500 (cp "Error: ") (Some e))).

(** [send_email_api]: the summary is generated before the [try]. *)
Definition send_email_api (E : env) (transcript : text) : M text :=
  let* summary := generate_summary E transcript in
  try_except
    (send_detail E transcript summary ;;
     ret (cp "Email sent successfully!"))
    (fun e => raise (HTTPException 500 (cp "Error: ") (Some e))).

(** ** [send_daily_takeaway] of [email_config.py] *)

(** How a call ends when an [IndexError] is possible besides the
    exceptions of [exn]. *)
Inductive outcome (A : Type) : Type :=
| Returned (a : A)
| Raised (e : exn)
| RaisedIndexError.
Arguments Returned {A} a.
Arguments Raised {A} e.
Arguments RaisedIndexError {A}.

(** [v[1]]; a [dict] decoded from JSON has no key [1], and its [KeyError]
    is written with the key's text. *)
Definition py_index1 (v : json) : outcome json :=
  match v with
  | JArr items => match items with
                  | _ :: x :: _ => Returned x
                  | _ => RaisedIndexError
                  end
  | JStr s => match s with
              | _ :: c :: _ => Returned (JStr [c])
              | _ => RaisedIndexError
              end
  | JObj _ => Raised (KeyError (cp "1"))
  | _ => Raised TypeError
  end.

Definition daily_subject : text := [128226] ++ cp " Daily Key Takeaway from Podcast".

(** The body, for the takeaway as the f-string prints it. *)
Definition daily_body (takeaway : text) : text :=
  cp "Good morning! " ++ [127774; newline; newline]
  ++ cp "Today's key takeaway:" ++ [newline; newline; 10145; 65039] ++ cp " "
  ++ takeaway ++ [newline; newline] ++ cp "Have a great day! " ++ [128640].

(** [send_daily_takeaway]; [repr] is [str] on the values that are not
    strings. *)
Definition send_daily_takeaway (E : env) (repr : json → text)
    : world → outcome unit * world :=
  fun w =>
    match get_latest_podcast_data (podcast_data w) with
    | Raise e => (Raised e, w)
    | Ok None =>
        (Returned tt, (print (cp "No podcast data available for email.") w).2)
    | Ok (Some data) =>
        if py_not (takeaways data) then
          (Returned tt, (print (cp "No podcast data available for email.") w).2)
        else
          match py_index1 (takeaways data) with
          | Raised e => (Raised e, w)
          | RaisedIndexError => (RaisedIndexError, w)
          | Returned takeaway =>
              let shown := match takeaway with JStr s => s | v => repr v end in
              match (send_email E daily_subject (daily_body shown) ;;
                     print ([9989] ++ cp " Daily takeaway email sent.")) w with
              | (Ok _, w') => (Returned tt, w')
              | (Raise e, w') => (Raised e, w')
              end
          end
    end.

(** ** Notions used by the further proofs *)


(** The value of an unfinished literal is [true], [false], [None] or a
    [float]. *)
Definition lit_scalar (st : state) : Prop :=
  match st.1 with
  | MLit (JObj _) _ | MLit (JArr _) _ | MLit (JStr _) _ => False
  | _ => True
  end.


(** A table with one row whose takeaways are the JSON text [tk]. *)
Definition table_with_takeaways (tk : text) : list row :=
  [{| row_id := 1; row_transcript := cp "hello world"; row_summary := cp "greeting";
      row_takeaways := tk; row_quiz := cp "{}" |}].

Definition world_with_table (tbl : list row) : world :=
  {| quiz_storage := ∅; podcast_data := tbl; files := ∅; stdout := []; calls := [] |}.

(** Services whose model is down. *)
Definition env_model_down : env :=
  {| whisper_transcribe := fun _ => Ok (cp "hello world");
     chat_completion := fun _ => Raise (ServiceError (cp "503"));
     smtp_sendmail := fun _ _ => Ok tt;
     sqlite_insert := fun _ _ _ _ => Ok tt;
     write_upload := fun _ _ => Ok tt;
     json_dumps := fun _ => cp "{}";
     str_lower := ascii_lower |}.

(** Services whose mail server is down. *)
Definition env_mail_down : env :=
  {| whisper_transcribe := fun _ => Ok (cp "hello world");
     chat_completion := fun _ => Ok (cp "a summary");
     smtp_sendmail := fun _ _ => Raise (ServiceError (cp "connection refused"));
     sqlite_insert := fun _ _ _ _ => Ok tt;
     write_upload := fun _ _ => Ok tt;
     json_dumps := fun _ => cp "{}";
     str_lower := ascii_lower |}.

(** Services whose serialiser writes [dumped] for every value. *)
Definition env_dumping (dumped : text) : env :=
  {| whisper_transcribe := fun _ => Ok (cp "hello world");
     chat_completion := fun _ => Ok (cp "{}");
     smtp_sendmail := fun _ _ => Ok tt;
     sqlite_insert := fun _ _ _ _ => Ok tt;
     write_upload := fun _ _ => Ok tt;
     json_dumps := fun _ => dumped;
     str_lower := ascii_lower |}.

(** * Proofs *)

(** ** Checks of the model *)

Example isspace_examples :
  map isspace [32; 9; 10; 13; 11; 12; 160; 8195; 44; 125; 65]
  = [true; true; true; true; true; true; true; true; false; false; false].
Proof. reflexivity. Qed.

Example strip_example : strip (cp "  {a}  ") = cp "{a}".
Proof. reflexivity. Qed.

Example re_sub_example :
  re_sub (dq "{'a': [1, 2, ], 'b': 3 , }") = dq "{'a': [1, 2 ], 'b': 3  }".
Proof. reflexivity. Qed.

Example sanitize_missing_brace :
  sanitize_json_output (dq " {'a': 1 ") = dq "{'a': 1}".
Proof. reflexivity. Qed.

Example json_loads_quiz :
  json_loads (dq "{'question': 'Q', 'options': ['a', 'b'], 'n': -1.5e3, 'ok': true}")
  = Some (JObj [(cp "question", JStr (cp "Q"));
                (cp "options", JArr [JStr (cp "a"); JStr (cp "b")]);
                (cp "n", JFloat (cp "-1.5e3"));
                (cp "ok", JBool true)]).
Proof. reflexivity. Qed.

Example json_loads_duplicate_key :
  json_loads (dq "{'a': 1, 'b': 2, 'a': 3}")
  = Some (JObj [(cp "a", JInt 3); (cp "b", JInt 2)]).
Proof. reflexivity. Qed.

Example json_loads_rejects :
  map json_loads [cp "[1,]"; dq "{'a': 1,}"; cp "01"; cp "1."; cp "[1] x";
                  dq "{'a' 1}"; dq "'abc"; cp ""; cp "nul"]
  = [None; None; None; None; None; None; None; None; None].
Proof. reflexivity. Qed.

(** ** The substitution *)

Lemma re_sub_match c rest :
  re_sub (c :: rest) =
  match match_trailing_comma (c :: rest) with
  | Some (g, after) => g ++ re_sub after
  | None => c :: re_sub rest
  end.
Proof.
  simp re_sub.
  enough (∀ p : {b | match_trailing_comma (c :: rest) = b},
            re_sub_unfold_clause_2 c rest p =
            match proj1_sig p with
            | Some (g, after) => g ++ re_sub after
            | None => c :: re_sub rest
            end) as H by apply H.
  intros [[[g a]|] E]; simp re_sub; reflexivity.
Qed.

(** The group matched at the head of [s] consists of white space and one
    closing bracket, and [s] is the group followed by the rest. *)
Lemma match_group_split s g after :
  match_group s = Some (g, after) →
  s = g ++ after ∧ Forall (fun c => c ≠ comma) g.
Proof.
  revert g after. induction s as [|c s IH]; intros g after; simpl; [done|].
  destruct (isspace c) eqn:Hc.
  - destruct (match_group s) as [[g1 a1]|]; [|done].
    intros [= <- <-]. destruct (IH _ _ eq_refl) as [-> Hg]. split; [done|].
    constructor; [|done]. intros ->. done.
  - destruct (is_closer c) eqn:Hcl; [|done]. intros [= <- <-]. split; [done|].
    constructor; [|done]. intros ->. done.
Qed.

Lemma re_sub_no_comma g s :
  Forall (fun c => c ≠ comma) g → re_sub (g ++ s) = g ++ re_sub s.
Proof.
  induction 1 as [|c g Hc _ IH]; [done|]. simpl.
  rewrite re_sub_match. simpl.
  destruct (N.eqb_spec c comma); [done|]. by rewrite IH.
Qed.

(** [re.sub] decides for each comma on its own: it goes when white space
    and a closing bracket follow, and every other character stays. *)
Lemma re_sub_cons c rest :
  re_sub (c :: rest) =
  if (c =? comma) && closer_follows rest then re_sub rest else c :: re_sub rest.
Proof.
  rewrite re_sub_match. unfold closer_follows. simpl.
  destruct (c =? comma); simpl; [|done].
  destruct (match_group rest) as [[g a]|] eqn:E; [|done].
  apply match_group_split in E as [-> Hg]. by rewrite re_sub_no_comma.
Qed.

Lemma re_sub_nil : re_sub [] = [].
Proof. by simp re_sub. Qed.

Lemma closer_follows_app a b :
  closer_follows a = true → closer_follows (a ++ b) = true.
Proof.
  unfold closer_follows. induction a as [|c a IH]; simpl; [done|].
  destruct (isspace c).
  - destruct (match_group a) as [[g r]|]; [|done]. intros _.
    destruct (match_group (a ++ b)) as [[g' r']|]; [done|]. by specialize (IH eq_refl).
  - by destruct (is_closer c).
Qed.

Lemma closer_follows_before_comma p rest :
  closer_follows (p ++ comma :: rest) = closer_follows p.
Proof.
  unfold closer_follows. induction p as [|c p IH]; [reflexivity|].
  cbn [app match_group].
  destruct (isspace c); [|by destruct (is_closer c)].
  destruct (match_group (p ++ comma :: rest)) as [[g r]|],
           (match_group p) as [[g' r']|]; done.
Qed.

Lemma closer_not_space c : is_closer c = true → isspace c = false ∧ c ≠ comma.
Proof.
  unfold is_closer. rewrite orb_true_iff, !N.eqb_eq. by intros [->| ->].
Qed.

Lemma closer_follows_space_closer w c :
  forallb isspace w = true → is_closer c = true → closer_follows (w ++ [c]) = true.
Proof.
  unfold closer_follows. intros Hw Hc. induction w as [|d w IH]; simpl.
  - destruct (closer_not_space c Hc) as [Hs _]. by rewrite Hs, Hc.
  - simpl in Hw. apply andb_true_iff in Hw as [-> Hw].
    destruct (match_group (w ++ [c])) as [[g r]|]; [done|]. by specialize (IH Hw).
Qed.

Lemma space_not_comma c : isspace c = true → c ≠ comma.
Proof. by intros H ->. Qed.

Lemma space_closer_no_comma w c :
  forallb isspace w = true → is_closer c = true →
  Forall (fun d => d ≠ comma) (w ++ [c]).
Proof.
  intros Hw Hc. apply Forall_app. split.
  - apply Forall_forall. intros d Hd. apply space_not_comma.
    rewrite forallb_forall in Hw. apply Hw. by apply list_elem_of_In.
  - repeat constructor. by apply closer_not_space.
Qed.

(** The repair of a text that ends in a comma, white space and a closing
    bracket: the comma goes, and the text before it is repaired as it
    would be alone. *)
Lemma re_sub_trailing p w c :
  forallb isspace w = true → is_closer c = true →
  re_sub (p ++ comma :: w ++ [c]) = re_sub p ++ w ++ [c].
Proof.
  intros Hw Hc. induction p as [|d p IH].
  - rewrite re_sub_nil. simpl. rewrite re_sub_cons, N.eqb_refl.
    rewrite closer_follows_space_closer by done. simpl.
    rewrite <- (app_nil_r (w ++ [c])) at 1.
    rewrite re_sub_no_comma by by apply space_closer_no_comma.
    by rewrite re_sub_nil, app_nil_r.
  - simpl. rewrite !re_sub_cons, closer_follows_before_comma.
    destruct ((d =? comma) && closer_follows p); [done|]. by rewrite IH.
Qed.

Lemma del_refl s : del s s.
Proof. induction s; by constructor. Qed.

(** The repair only takes away commas that stand before a closing
    bracket, whatever follows the repaired part. *)
Lemma del_re_sub_prefix q rest : del (q ++ rest) (re_sub q ++ rest).
Proof.
  induction q as [|c q IH].
  - rewrite re_sub_nil. apply del_refl.
  - simpl. rewrite re_sub_cons.
    destruct (c =? comma) eqn:Hc; simpl.
    + apply N.eqb_eq in Hc as ->.
      destruct (closer_follows q) eqn:Hq.
      * apply del_drop; [by apply closer_follows_app|done].
      * by apply del_keep.
    + by apply del_keep.
Qed.

Lemma del_re_sub s : del s (re_sub s).
Proof.
  pose proof (del_re_sub_prefix s []) as H. by rewrite !app_nil_r in H.
Qed.

(** *** Stripping *)

Lemma lstrip_before_nonspace p c rest :
  isspace c = false → lstrip (p ++ c :: rest) = lstrip p ++ c :: rest.
Proof.
  intros Hc. induction p as [|d p IH]; simpl; [by rewrite Hc|].
  by destruct (isspace d).
Qed.

Lemma rstrip_snoc s c : isspace c = false → rstrip (s ++ [c]) = s ++ [c].
Proof.
  intros Hc. unfold rstrip. rewrite rev_app_distr. simpl. rewrite Hc.
  simpl. by rewrite rev_involutive.
Qed.

Lemma endswith_snoc s c : endswith (s ++ [c]) c = true.
Proof. unfold endswith. rewrite last_snoc. apply N.eqb_refl. Qed.

Lemma strip_trailing p w c :
  is_closer c = true →
  strip (p ++ comma :: w ++ [c]) = lstrip p ++ comma :: w ++ [c].
Proof.
  intros Hc. unfold strip. rewrite lstrip_before_nonspace by done.
  replace (lstrip p ++ comma :: w ++ [c]) with ((lstrip p ++ comma :: w) ++ [c])
    by by rewrite <- app_assoc.
  apply rstrip_snoc. by apply closer_not_space.
Qed.

(** ** The decoder *)

Lemma shape_frames_idemp stk :
  map shape_frame (map shape_frame stk) = map shape_frame stk.
Proof.
  rewrite map_map. apply map_ext. by intros [items|d [k|]].
Qed.

Ltac shape_done := cbn; unfold shape; cbn; rewrite ?shape_frames_idemp; reflexivity.

Lemma complete_shape v v' stk :
  shape <$> complete v stk = shape <$> complete v' (map shape_frame stk).
Proof. destruct stk as [|[items|d [k|]] stk]; shape_done. Qed.

Lemma start_value_shape c stk :
  shape <$> start_value c stk = shape <$> start_value c (map shape_frame stk).
Proof.
  unfold start_value. repeat (case_match; [shape_done|]). shape_done.
Qed.

Lemma after_value_shape st c :
  shape <$> after_value st c = shape <$> after_value (shape st) c.
Proof.
  destruct st as [m stk]. unfold after_value.
  destruct m; (destruct (is_json_ws c); [shape_done|]); try shape_done.
  destruct stk as [|[items|d [k|]] stk]; simpl; try shape_done.
  - destruct (c =? comma); [shape_done|].
    destruct (c =? rbracket); [|shape_done]. apply complete_shape.
  - destruct (c =? comma); [shape_done|].
    destruct (c =? rbrace); [|shape_done]. apply complete_shape.
Qed.

Lemma step_shape st c : shape <$> step st c = shape <$> step (shape st) c.
Proof.
  destruct st as [m stk]. destruct m; simpl.
  - destruct (is_json_ws c); [shape_done|]. apply start_value_shape.
  - destruct (is_json_ws c); [shape_done|].
    destruct (c =? rbracket); [|apply start_value_shape].
    destruct stk as [|[items|d k] stk]; simpl; try shape_done. apply complete_shape.
  - destruct (is_json_ws c); [shape_done|].
    destruct (c =? rbrace).
    + destruct stk as [|[items|d k] stk]; simpl; try shape_done. apply complete_shape.
    + destruct (c =? dquote); shape_done.
  - destruct (is_json_ws c); [shape_done|]. destruct (c =? dquote); shape_done.
  - destruct (is_json_ws c); [shape_done|]. destruct (c =? 58); shape_done.
  - apply (after_value_shape (MAfter, stk)).
  - apply (after_value_shape (MDone v, stk)).
  - destruct (c =? dquote).
    + unfold end_string. destruct stk as [|[items|d [k|]] stk]; try shape_done.
    + destruct (c =? 92); [shape_done|]. destruct (c <? 32); shape_done.
  - destruct (c =? 117); [shape_done|]. destruct (escape_char c); shape_done.
  - destruct (hex_val c); [|shape_done]. destruct left as [|[|k]]; shape_done.
  - destruct (num_step ns c); [shape_done|].
    destruct ((c =? 73) && bool_decide (ns = NMinus)); [shape_done|].
    destruct (num_final ns); [|shape_done].
    destruct stk as [|[items|d [k|]] stk]; simpl; try shape_done.
    + unfold after_value. destruct (is_json_ws c); shape_done.
    + etrans; [apply after_value_shape|]. symmetry.
      etrans; [apply after_value_shape|]. shape_done.
    + etrans; [apply after_value_shape|]. symmetry.
      etrans; [apply after_value_shape|]. shape_done.
  - destruct rest as [|r rest]; [shape_done|].
    destruct (c =? r); [|shape_done].
    destruct rest; [apply complete_shape|shape_done].
Qed.

Lemma finish_shape st : is_Some (finish st) ↔ is_Some (finish (shape st)).
Proof.
  destruct st as [m stk]. destruct m; cbn; try done.
  destruct stk; cbn; [|done]. destruct (num_final ns); cbn; split; eauto.
Qed.

Lemma shape_idemp st : shape (shape st) = shape st.
Proof.
  destruct st as [m stk]. unfold shape. cbn. rewrite shape_frames_idemp.
  by destruct m.
Qed.

(** Acceptance depends on the state's shape alone. *)
Lemma accepts_shape s : ∀ st st', shape st = shape st' → accepts st s → accepts st' s.
Proof.
  unfold accepts. induction s as [|c s IH]; intros st st' Hs; cbn.
  - rewrite (finish_shape st), (finish_shape st'). by rewrite Hs.
  - pose proof (step_shape st c) as H1. pose proof (step_shape st' c) as H2.
    rewrite Hs in H1. rewrite <- H1 in H2.
    destruct (step st c) as [st1|], (step st' c) as [st1'|]; cbn in *; try done.
    apply IH. congruence.
Qed.

Lemma complete_lit_ok v stk st : complete v stk = Some st → lit_ok st.
Proof. destruct stk as [|[items|d [k|]] stk]; intros [= <-]; exact I. Qed.

Lemma start_value_lit_ok c stk st : start_value c stk = Some st → lit_ok st.
Proof.
  unfold start_value.
  repeat (case_match; [intros [= <-]; try exact I; cbv; repeat constructor; done|]).
  done.
Qed.

Lemma after_value_lit_ok st c st' : lit_ok st → after_value st c = Some st' → lit_ok st'.
Proof.
  destruct st as [m stk]. unfold after_value. intros Hok.
  destruct (is_json_ws c); [by intros [= <-]|].
  destruct m; try done.
  destruct stk as [|[items|d [k|]] stk]; try done.
  - destruct (c =? comma); [by intros [= <-]|].
    destruct (c =? rbracket); [|done]. apply complete_lit_ok.
  - destruct (c =? comma); [by intros [= <-]|].
    destruct (c =? rbrace); [|done]. apply complete_lit_ok.
Qed.

Lemma step_lit_ok st c st' : lit_ok st → step st c = Some st' → lit_ok st'.
Proof.
  destruct st as [m stk]. intros Hok. destruct m; cbn.
  - destruct (is_json_ws c); [by intros [= <-]|]. apply start_value_lit_ok.
  - destruct (is_json_ws c); [by intros [= <-]|].
    destruct (c =? rbracket); [|apply start_value_lit_ok].
    destruct stk as [|[items|d k] stk]; try done. apply complete_lit_ok.
  - destruct (is_json_ws c); [by intros [= <-]|].
    destruct (c =? rbrace).
    + destruct stk as [|[items|d k] stk]; try done. apply complete_lit_ok.
    + destruct (c =? dquote); [by intros [= <-]|done].
  - destruct (is_json_ws c); [by intros [= <-]|].
    destruct (c =? dquote); [by intros [= <-]|done].
  - destruct (is_json_ws c); [by intros [= <-]|].
    destruct (c =? 58); [by intros [= <-]|done].
  - by apply after_value_lit_ok.
  - by apply after_value_lit_ok.
  - destruct (c =? dquote).
    + unfold end_string. destruct stk as [|[items|d [k|]] stk];
        intros [= <-]; exact I.
    + destruct (c =? 92); [by intros [= <-]|].
      destruct (c <? 32); [done|by intros [= <-]].
  - destruct (c =? 117); [by intros [= <-]|].
    destruct (escape_char c); [by intros [= <-]|done].
  - destruct (hex_val c); [|done]. destruct left as [|[|k]]; [done| |]; by intros [= <-].
  - destruct (num_step ns c); [by intros [= <-]|].
    destruct ((c =? 73) && bool_decide (ns = NMinus)).
    { intros [= <-]. cbv. repeat constructor; done. }
    destruct (num_final ns); [|done].
    destruct (complete _ stk) as [st1|] eqn:E; [|done].
    apply after_value_lit_ok. by eapply complete_lit_ok.
  - destruct rest as [|r rest]; [done|].
    destruct (c =? r); [|done].
    destruct rest as [|r' rest]; [apply complete_lit_ok|].
    intros [= <-]. red in Hok. cbn in *. by inversion Hok.
Qed.

(** A comma is data inside a string and a separator elsewhere. *)
Lemma step_comma st st' :
  lit_ok st → step st comma = Some st' → shape st' = shape st ∨ expects_item st'.
Proof.
  destruct st as [m stk]. intros Hok. destruct m; try (cbn; done).
  - cbn. destruct stk as [|[items|d [k|]] stk]; try done;
      intros [= <-]; right; unfold expects_item; cbn; auto.
  - cbn. intros [= <-]. by left.
  - cbn. replace (num_step ns comma) with (@None numstate) by (by destruct ns).
    cbn. destruct (num_final ns); [|done].
    destruct stk as [|[items|d [k|]] stk]; cbn; try done;
      intros [= <-]; right; unfold expects_item; cbn; auto.
  - unfold step. destruct rest as [|r rest]; [done|].
    destruct (N.eqb_spec comma r) as [<-|]; [|done].
    red in Hok. cbn in Hok. inversion Hok as [|? ? [Hlo _] _].
    unfold comma in Hlo. lia.
Qed.

Lemma isspace_not_start c stk :
  isspace c = true → is_json_ws c = false → start_value c stk = None.
Proof.
  intros Hs Hw. unfold start_value, dquote, is_digit.
  repeat match goal with
         | |- context [?a =? ?b] =>
             destruct (N.eqb_spec a b) as [->|]; [by vm_compute in Hs|]
         end.
  destruct (N.leb_spec 48 c), (N.leb_spec c 57); cbn; try done.
  unfold isspace in Hs.
  rewrite ?orb_true_iff, ?andb_true_iff, ?N.leb_le, ?N.eqb_eq in Hs. lia.
Qed.

Lemma json_ws_isspace c : is_json_ws c = true → isspace c = true.
Proof.
  unfold is_json_ws. rewrite !orb_true_iff, !N.eqb_eq.
  intros [[[->| ->]| ->]| ->]; reflexivity.
Qed.

(** Where a value or a key must start, white space and a closing bracket
    are refused. *)
Lemma expects_item_refuses s : ∀ st,
  expects_item st → closer_follows s = true → ¬ accepts st s.
Proof.
  unfold closer_follows, accepts.
  induction s as [|c s IH]; intros [m stk] Hm; [done|].
  cbn [match_group run].
  assert (is_json_ws c = false →
          (isspace c = true ∨ is_closer c = true) → step (m, stk) c = None) as Hno.
  { intros Hws Hc.
    assert (start_value c stk = None ∧ (c =? dquote) = false) as [Hsv Hdq].
    { destruct Hc as [Hc|Hc].
      - split; [by apply isspace_not_start|].
        by destruct (N.eqb_spec c dquote) as [->|].
      - unfold is_closer in Hc.
        destruct (N.eqb_spec c rbracket) as [->|]; [done|].
        by destruct (N.eqb_spec c rbrace) as [->|]. }
    destruct Hm as [Hm|Hm]; cbn in Hm; subst m; unfold step;
      by rewrite Hws, ?Hsv, ?Hdq. }
  destruct (is_json_ws c) eqn:Hws.
  - assert (step (m, stk) c = Some (m, stk)) as ->.
    { destruct Hm as [Hm|Hm]; cbn in Hm; subst m; unfold step; by rewrite Hws. }
    rewrite (json_ws_isspace c Hws).
    destruct (match_group s) as [[g a]|] eqn:Hg; [|done]. intros _.
    by apply IH.
  - destruct (isspace c) eqn:Hsp.
    + intros _. rewrite Hno by auto. by intros [? ?].
    + destruct (is_closer c) eqn:Hcl; [|done].
      intros _. rewrite Hno by auto. by intros [? ?].
Qed.

(** Deleting commas that stand before a closing bracket keeps the text
    acceptable: such a comma can only occur inside a string. *)
Lemma accepts_del s t : del s t → ∀ st, lit_ok st → accepts st s → accepts st t.
Proof.
  induction 1 as [|c s t Hd IH|s t Hc Hd IH]; intros st Hok; [done| |].
  - unfold accepts. cbn. destruct (step st c) as [st1|] eqn:E; [|done].
    apply IH. by eapply step_lit_ok.
  - intros Hacc. apply IH; [done|].
    unfold accepts in Hacc. cbn in Hacc.
    destruct (step st comma) as [st1|] eqn:E; [|by destruct Hacc].
    destruct (step_comma _ _ Hok E) as [Hsh|Hit].
    + by eapply accepts_shape.
    + by destruct (expects_item_refuses s st1).
Qed.

Lemma json_valid_accepts s : json_valid s = true ↔ accepts (MValue, []) s.
Proof.
  unfold json_valid, accepts, json_loads. by rewrite bool_decide_eq_true.
Qed.

(** White space that [strip] removes in front of valid JSON is white space
    that the decoder skips. *)
Lemma accepts_lstrip p rest :
  accepts (MValue, []) (p ++ rest) → accepts (MValue, []) (lstrip p ++ rest).
Proof.
  induction p as [|c p IH]; [done|]. simpl.
  destruct (isspace c) eqn:Hc; [|done].
  intros Hacc. apply IH. revert Hacc. unfold accepts. cbn [run].
  destruct (is_json_ws c) eqn:Hws.
  - unfold step. by rewrite Hws.
  - unfold step. rewrite Hws, isspace_not_start by done. by intros [? ?].
Qed.

(** ** JSON repair (C1, C2) *)

Lemma sanitize_endswith s : endswith (sanitize_json_output s) rbrace = true.
Proof.
  unfold sanitize_json_output.
  destruct (endswith (re_sub (strip s)) rbrace) eqn:E; simpl; [done|].
  apply endswith_snoc.
Qed.

(** C1 (amended): for an input that ends in a comma, white space and [}],
    the repair removes that comma (the output is the repaired text before
    the comma, then the same white space and the brace, and nothing is
    appended), and the output is valid JSON whenever the input without that
    comma is valid JSON.  When the input ends in []] instead, the comma is
    removed as well, but a [}] is appended behind the bracket. *)
Theorem sanitize_trailing_comma p w :
  forallb isspace w = true →
  sanitize_json_output (p ++ comma :: w ++ [rbrace])
    = re_sub (lstrip p) ++ w ++ [rbrace]
  ∧ sanitize_json_output (p ++ comma :: w ++ [rbracket])
    = re_sub (lstrip p) ++ w ++ [rbracket; rbrace]
  ∧ (json_valid (p ++ w ++ [rbrace]) = true →
     json_valid (sanitize_json_output (p ++ comma :: w ++ [rbrace])) = true).
Proof.
  intros Hw.
  assert (sanitize_json_output (p ++ comma :: w ++ [rbrace])
          = re_sub (lstrip p) ++ w ++ [rbrace]) as Hbrace.
  { unfold sanitize_json_output. rewrite strip_trailing, re_sub_trailing by done.
    by rewrite app_assoc, endswith_snoc. }
  split; [done|]. split.
  - unfold sanitize_json_output. rewrite strip_trailing, re_sub_trailing by done.
    replace (endswith (re_sub (lstrip p) ++ w ++ [rbracket]) rbrace) with false.
    + simpl. by rewrite <- !app_assoc.
    + rewrite app_assoc. unfold endswith. by rewrite last_snoc.
  - rewrite Hbrace, !json_valid_accepts. intros Hacc.
    apply accepts_lstrip in Hacc.
    by apply (accepts_del _ _ (del_re_sub_prefix (lstrip p) (w ++ [rbrace]))).
Qed.

Lemma sanitize_trailing_comma_witness :
  forallb isspace (cp " ") = true
  ∧ json_valid (dq "{'a': [1, 2]" ++ cp " " ++ [rbrace]) = true
  ∧ sanitize_json_output (dq "{'a': [1, 2]" ++ comma :: cp " " ++ [rbrace])
    = dq "{'a': [1, 2] }"
  ∧ json_valid (sanitize_json_output (dq "{'a': [1, 2]" ++ comma :: cp " " ++ [rbrace]))
    = true.
Proof.
  destruct (sanitize_trailing_comma (dq "{'a': [1, 2]") (cp " ") eq_refl)
    as (Hout & _ & Hvalid).
  split; [reflexivity|]. split; [reflexivity|]. split.
  - rewrite Hout. reflexivity.
  - apply Hvalid. reflexivity.
Defined.

(** C1 as stated fails for a closing bracket: [[1,]] is valid JSON apart
    from its trailing comma, and its repair [[1]}] is not valid JSON. *)
Lemma sanitize_trailing_comma_bracket_counterexample :
  cp "[1,]" = cp "[1" ++ comma :: [] ++ [rbracket]
  ∧ json_valid (cp "[1" ++ [] ++ [rbracket]) = true
  ∧ sanitize_json_output (cp "[1,]") = cp "[1]}"
  ∧ json_valid (sanitize_json_output (cp "[1,]")) = false.
Proof. repeat split; reflexivity. Qed.

Lemma re_sub_length s : (length (re_sub s) ≤ length s)%nat.
Proof.
  induction s as [|c s IH]; [by rewrite re_sub_nil|].
  rewrite re_sub_cons. destruct ((c =? comma) && closer_follows s); simpl; lia.
Qed.

Lemma re_sub_id s : Forall (fun c => c ≠ comma) s → re_sub s = s.
Proof.
  intros H. rewrite <- (app_nil_r s) at 1.
  by rewrite re_sub_no_comma, re_sub_nil, app_nil_r.
Qed.

(** The repair keeps a last character that is not a comma. *)
Lemma re_sub_snoc s c : c ≠ comma → ∃ y, re_sub (s ++ [c]) = y ++ [c].
Proof.
  intros Hc. induction s as [|d s [y IH]].
  - exists []. apply re_sub_id. by repeat constructor.
  - simpl. rewrite re_sub_cons, IH.
    destruct ((d =? comma) && closer_follows (s ++ [c])); [by exists y|].
    by exists (d :: y).
Qed.

Lemma lstrip_length s : (length (lstrip s) ≤ length s)%nat.
Proof. induction s as [|c s IH]; simpl; [done|]. destruct (isspace c); simpl; lia. Qed.

Lemma lstrip_same_length s : length (lstrip s) = length s → lstrip s = s.
Proof.
  destruct s as [|c s]; simpl; [done|]. destruct (isspace c); [|done].
  pose proof (lstrip_length s). lia.
Qed.

Lemma lstrip_idemp s : lstrip (lstrip s) = lstrip s.
Proof.
  induction s as [|c s IH]; simpl; [done|].
  destruct (isspace c) eqn:Hc; [done|]. simpl. by rewrite Hc.
Qed.

Lemma rstrip_cons c s : isspace c = false → rstrip (c :: s) = c :: rstrip s.
Proof.
  intros Hc. unfold rstrip. simpl. rewrite lstrip_before_nonspace by done.
  by rewrite rev_app_distr.
Qed.

(** A stripped text does not begin with white space. *)
Lemma lstrip_strip s : lstrip (strip s) = strip s.
Proof.
  unfold strip. pose proof (lstrip_idemp s) as Hi.
  destruct (lstrip s) as [|c u]; [done|].
  simpl in Hi. destruct (isspace c) eqn:Hc.
  - pose proof (lstrip_length u) as Hl. rewrite Hi in Hl. simpl in Hl. lia.
  - rewrite rstrip_cons by done. simpl. by rewrite Hc.
Qed.

Lemma lstrip_elem c s : c ∈ lstrip s → c ∈ s.
Proof.
  induction s as [|d s IH]; simpl; [done|].
  destruct (isspace d); [|done]. intros H. right. by apply IH.
Qed.

Lemma strip_elem c s : c ∈ strip s → c ∈ s.
Proof.
  unfold strip, rstrip. intros H. apply lstrip_elem.
  apply list_elem_of_In, in_rev, list_elem_of_In in H.
  apply lstrip_elem in H. by apply list_elem_of_In, in_rev, list_elem_of_In.
Qed.

Lemma lstrip_snoc s c : isspace c = false → lstrip (s ++ [c]) = lstrip s ++ [c].
Proof. apply lstrip_before_nonspace. Qed.

Lemma endswith_inv s c : endswith s c = true → ∃ x, s = x ++ [c].
Proof.
  unfold endswith. destruct s as [|d s] using rev_ind; [done|].
  rewrite last_snoc. intros ->%N.eqb_eq. by exists s.
Qed.

(** On a text that ends in [}] the repair is stripping on the left and
    substituting. *)
Lemma sanitize_of_braced t :
  endswith t rbrace = true → sanitize_json_output t = re_sub (lstrip t).
Proof.
  intros [x ->]%endswith_inv. unfold sanitize_json_output, strip.
  rewrite lstrip_snoc by done. rewrite rstrip_snoc by done.
  destruct (re_sub_snoc (lstrip x) rbrace) as [y ->]; [done|].
  by rewrite endswith_snoc.
Qed.

(** C2 (amended): when the stripped, comma-repaired form of the input does
    not end with [}], the repair is that form followed by one [}].  Repairing
    a repaired text changes nothing exactly when the repaired text neither
    begins with white space nor holds a comma before a closing bracket; this
    is so for every input without a comma. *)
Theorem sanitize_appends_brace_and_idempotence s :
  (endswith (re_sub (strip s)) rbrace = false →
   sanitize_json_output s = re_sub (strip s) ++ [rbrace])
  ∧ (sanitize_json_output (sanitize_json_output s) = sanitize_json_output s
     ↔ lstrip (sanitize_json_output s) = sanitize_json_output s
       ∧ re_sub (sanitize_json_output s) = sanitize_json_output s)
  ∧ (comma ∉ s →
     sanitize_json_output (sanitize_json_output s) = sanitize_json_output s).
Proof.
  assert (sanitize_json_output (sanitize_json_output s) = sanitize_json_output s
     ↔ lstrip (sanitize_json_output s) = sanitize_json_output s
       ∧ re_sub (sanitize_json_output s) = sanitize_json_output s) as Hiff.
  { rewrite (sanitize_of_braced _ (sanitize_endswith s)).
    set (t := sanitize_json_output s). split.
    - intros Heq.
      pose proof (re_sub_length (lstrip t)) as H1. pose proof (lstrip_length t) as H2.
      rewrite Heq in H1.
      assert (lstrip t = t) as Hl by (apply lstrip_same_length; lia).
      split; [done|]. by rewrite Hl in Heq.
    - intros [-> ->]. done. }
  split; [|split; [done|]].
  - unfold sanitize_json_output. by intros ->.
  - intros Hs. apply Hiff.
    assert (Forall (fun c => c ≠ comma) (strip s)) as Hu.
    { apply Forall_forall. intros c Hc ->. by apply Hs, strip_elem. }
    unfold sanitize_json_output. rewrite (re_sub_id _ Hu).
    pose proof (lstrip_strip s) as Hl.
    destruct (endswith (strip s) rbrace); simpl.
    + split; [done|]. by apply re_sub_id.
    + split.
      * destruct (strip s) as [|c u]; [done|]. simpl in *.
        destruct (isspace c); [|done].
        pose proof (lstrip_length u) as Hlen. rewrite Hl in Hlen. simpl in Hlen. lia.
      * apply re_sub_id, Forall_app. split; [done|]. by repeat constructor.
Qed.

Lemma sanitize_appends_brace_and_idempotence_witness :
  sanitize_json_output (dq "{'a': 1") = dq "{'a': 1" ++ [rbrace]
  ∧ sanitize_json_output (sanitize_json_output (dq "{'a': 1"))
    = sanitize_json_output (dq "{'a': 1").
Proof.
  destruct (sanitize_appends_brace_and_idempotence (dq "{'a': 1"))
    as (Happ & Hiff & Hnc).
  split.
  - apply Happ. reflexivity.
  - apply Hnc. refine (bool_decide_unpack _ _). by vm_compute.
Defined.

(** C2 as stated fails: a text cut off behind a comma is repaired to a text
    whose comma then stands before the appended brace, and the second
    repair removes it. *)
Lemma sanitize_not_idempotent_counterexample :
  sanitize_json_output (dq "{'a': 1,") = dq "{'a': 1,}"
  ∧ sanitize_json_output (sanitize_json_output (dq "{'a': 1,")) = dq "{'a': 1}"
  ∧ sanitize_json_output (sanitize_json_output (dq "{'a': 1,"))
    ≠ sanitize_json_output (dq "{'a': 1,").
Proof. repeat split; try reflexivity. by vm_compute. Qed.

(** ** Quiz normalisation (C3, C4, C9) *)

Lemma text_eqb_true a b : text_eqb a b = true ↔ a = b.
Proof. unfold text_eqb. apply bool_decide_eq_true. Qed.

Lemma dict_get_mem k d v : dict_get k d = Some v → dict_mem k d = true.
Proof.
  induction d as [|[k' v'] d IH]; simpl; [done|].
  destruct (text_eqb k k'); [done|]. apply IH.
Qed.

Lemma dict_get_set_eq k v d : dict_get k (dict_set k v d) = Some v.
Proof.
  induction d as [|[k' v'] d IH]; simpl.
  - unfold text_eqb. by rewrite bool_decide_true.
  - destruct (text_eqb k k') eqn:E; simpl; by rewrite E.
Qed.

Lemma dict_get_set_ne k k0 v d : k0 ≠ k → dict_get k0 (dict_set k v d) = dict_get k0 d.
Proof.
  intros Hne. induction d as [|[k' v'] d IH]; simpl.
  - unfold text_eqb. by rewrite bool_decide_false.
  - destruct (text_eqb k k') eqn:E; simpl; [|by rewrite IH].
    apply text_eqb_true in E as <-.
    unfold text_eqb. by rewrite bool_decide_false.
Qed.

Lemma dict_set_keys k v d :
  dict_mem k d = true → map fst (dict_set k v d) = map fst d.
Proof.
  induction d as [|[k' v'] d IH]; simpl; [done|].
  destruct (text_eqb k k'); simpl; [done|]. intros H. by rewrite IH.
Qed.

(** What [generate_quiz_question] does once the model has answered. *)
Lemma generate_quiz_question_answered E txt content w :
  chat_completion E (quiz_prompt txt) = Ok content →
  generate_quiz_question E txt w =
  let w1 := (external (Chat QuizGeneration (quiz_prompt txt))
                      (Ok content : result text) w).2 in
  match parse_quiz (sanitize_json_output (strip content)) with
  | Raise JSONDecodeError =>
      (Ok (JObj []), (print (cp "Error decoding response: " ++ strip content) w1).2)
  | r => (r, w1)
  end.
Proof.
  intros Hc. unfold generate_quiz_question, bind, except_JSONDecodeError, lift.
  rewrite Hc. cbn [external fst snd].
  destruct (parse_quiz _) as [q|[]]; reflexivity.
Qed.

Lemma parse_quiz_list s quiz options :
  json_loads s = Some (JObj quiz) →
  dict_get (cp "options") quiz = Some (JArr options) →
  parse_quiz s =
  Ok (JObj (if (4 <? length options)%nat
            then dict_set (cp "options") (JArr (take 4 options)) quiz
            else quiz)).
Proof.
  intros Hl Hg. unfold parse_quiz. rewrite Hl.
  cbn [py_contains py_getitem]. rewrite (dict_get_mem _ _ _ Hg), Hg.
  cbn [py_len]. by destruct (4 <? length options)%nat.
Qed.

(** C3: when the repaired text parses as an object whose [options] is a
    list, the returned record holds the first four options in their order
    if there were more than four, and is the parsed object itself if there
    were four or fewer; every other field, and the order of the keys, is as
    parsed. *)
Theorem quiz_options_truncated_to_four E txt content quiz options w :
  chat_completion E (quiz_prompt txt) = Ok content →
  json_loads (sanitize_json_output (strip content)) = Some (JObj quiz) →
  dict_get (cp "options") quiz = Some (JArr options) →
  ∃ quiz',
    (generate_quiz_question E txt w).1 = Ok (JObj quiz')
    ∧ ((4 < length options)%nat →
       dict_get (cp "options") quiz' = Some (JArr (take 4 options)))
    ∧ ((length options ≤ 4)%nat → quiz' = quiz)
    ∧ (∀ k, k ≠ cp "options" → dict_get k quiz' = dict_get k quiz)
    ∧ map fst quiz' = map fst quiz.
Proof.
  intros Hc Hl Hg.
  rewrite (generate_quiz_question_answered _ _ _ _ Hc).
  rewrite (parse_quiz_list _ _ _ Hl Hg). cbn [fst].
  destruct (Nat.ltb_spec 4 (length options)) as [Hlt|Hle].
  - eexists. split; [done|]. repeat split.
    + intros _. apply dict_get_set_eq.
    + lia.
    + intros k Hk. by apply dict_get_set_ne.
    + apply dict_set_keys. by eapply dict_get_mem.
  - eexists. split; [done|]. repeat split; [lia|done..].
Qed.

(** The example of the specification: five options, cut to four. *)
Lemma quiz_options_truncated_to_four_witness :
  ∃ quiz',
    (generate_quiz_question
       (env_replying
          (dq "{'question':'Q','options':['a','b','c','d','e'],'correct_answer':'a'}"))
       (cp "text") initial_world).1 = Ok (JObj quiz')
    ∧ dict_get (cp "options") quiz'
      = Some (JArr [JStr (cp "a"); JStr (cp "b"); JStr (cp "c"); JStr (cp "d")])
    ∧ dict_get (cp "question") quiz' = Some (JStr (cp "Q"))
    ∧ dict_get (cp "correct_answer") quiz' = Some (JStr (cp "a")).
Proof.
  destruct (quiz_options_truncated_to_four
              (env_replying
                 (dq "{'question':'Q','options':['a','b','c','d','e'],'correct_answer':'a'}"))
              (cp "text")
              (dq "{'question':'Q','options':['a','b','c','d','e'],'correct_answer':'a'}")
              [(cp "question", JStr (cp "Q"));
               (cp "options", JArr (map (fun s => JStr (cp s)) ["a"; "b"; "c"; "d"; "e"]%string));
               (cp "correct_answer", JStr (cp "a"))]
              (map (fun s => JStr (cp s)) ["a"; "b"; "c"; "d"; "e"]%string)
              initial_world eq_refl eq_refl eq_refl)
    as (quiz' & Hret & Hcut & _ & Hother & _).
  exists quiz'. split; [exact Hret|]. split; [|split].
  - apply Hcut. simpl. lia.
  - rewrite Hother; [reflexivity|]. by vm_compute.
  - rewrite Hother; [reflexivity|]. by vm_compute.
Defined.

(** C4: when the repaired text does not parse, [generate_quiz_question]
    returns the empty record instead of raising, and prints the model's
    output as it was before the repair. *)
Theorem quiz_unparseable_returns_empty E txt content w :
  chat_completion E (quiz_prompt txt) = Ok content →
  json_loads (sanitize_json_output (strip content)) = None →
  ∃ w',
    generate_quiz_question E txt w = (Ok (JObj []), w')
    ∧ stdout w' = stdout w ++ [cp "Error decoding response: " ++ strip content]
    ∧ quiz_storage w' = quiz_storage w
    ∧ podcast_data w' = podcast_data w.
Proof.
  intros Hc Hl. rewrite (generate_quiz_question_answered _ _ _ _ Hc).
  unfold parse_quiz. rewrite Hl. cbn. eexists. by split.
Qed.

Lemma quiz_unparseable_returns_empty_witness :
  ∃ w',
    generate_quiz_question (env_replying (cp "Sorry, I cannot do that."))
      (cp "text") initial_world = (Ok (JObj []), w')
    ∧ stdout w'
      = [cp "Error decoding response: Sorry, I cannot do that."].
Proof.
  destruct (quiz_unparseable_returns_empty
              (env_replying (cp "Sorry, I cannot do that.")) (cp "text")
              (cp "Sorry, I cannot do that.") initial_world eq_refl eq_refl)
    as (w' & Hret & Hout & _).
  exists w'. split; [exact Hret|]. rewrite Hout. reflexivity.
Defined.

(** C9: only a decoding failure is caught.  When the repaired text parses
    as an object whose [options] has no length, [len] raises a [TypeError]
    that leaves [generate_quiz_question]; [{"options": 5}] is such a text. *)
Theorem quiz_options_without_len_raises :
  (∀ E txt content quiz v w,
     chat_completion E (quiz_prompt txt) = Ok content →
     json_loads (sanitize_json_output (strip content)) = Some (JObj quiz) →
     dict_get (cp "options") quiz = Some v →
     py_len v = Raise TypeError →
     (generate_quiz_question E txt w).1 = Raise TypeError)
  ∧ json_loads (sanitize_json_output (strip (dq "{'options': 5}")))
    = Some (JObj [(cp "options", JInt 5)])
  ∧ py_len (JInt 5) = Raise TypeError.
Proof.
  split; [|by split].
  intros E txt content quiz v w Hc Hl Hg Hlen.
  rewrite (generate_quiz_question_answered _ _ _ _ Hc).
  unfold parse_quiz. rewrite Hl.
  cbn [py_contains py_getitem]. rewrite (dict_get_mem _ _ _ Hg), Hg, Hlen.
  reflexivity.
Qed.

Lemma quiz_options_without_len_raises_witness :
  (generate_quiz_question (env_replying (dq "{'options': 5}"))
     (cp "text") initial_world).1 = Raise TypeError.
Proof.
  destruct quiz_options_without_len_raises as (Hraise & Hparse & Hlen).
  exact (Hraise (env_replying (dq "{'options': 5}")) (cp "text")
           (dq "{'options': 5}") _ _ initial_world eq_refl Hparse eq_refl Hlen).
Defined.

(** ** Only objects end in a brace *)

Lemma run_app s t st :
  run st (s ++ t) = match run st s with Some st' => run st' t | None => None end.
Proof.
  revert st. induction s as [|c s IH]; intros st; simpl; [done|].
  by destruct (step st c).
Qed.

Lemma run_lit_ok s : ∀ st st', lit_ok st → run st s = Some st' → lit_ok st'.
Proof.
  induction s as [|c s IH]; intros st st' Hok; simpl; [by intros [= <-]|].
  destruct (step st c) as [st1|] eqn:E; [|done].
  apply IH. by eapply step_lit_ok.
Qed.

Lemma complete_object_finish d stk st v :
  complete (JObj d) stk = Some st → finish st = Some v → v = JObj d.
Proof.
  destruct stk as [|[items|d' [k|]] stk]; simpl; intros [= <-]; simpl; congruence.
Qed.

Lemma after_value_rbrace_finish st st' v :
  after_value st rbrace = Some st' → finish st' = Some v → ∃ d, v = JObj d.
Proof.
  destruct st as [m stk]. unfold after_value. cbn [is_json_ws N.eqb orb].
  change (is_json_ws rbrace) with false. cbv iota.
  destruct m; try done.
  destruct stk as [|[items|d [k|]] stk]; try done.
  change (rbrace =? comma) with false. rewrite N.eqb_refl.
  intros Hc Hf. exists d. by eapply complete_object_finish.
Qed.

(** A brace can only close an object: the decoder, fed a brace, finishes
    with an object or not at all. *)
Lemma step_rbrace_finish st st' v :
  lit_ok st → step st rbrace = Some st' → finish st' = Some v → ∃ d, v = JObj d.
Proof.
  destruct st as [m stk]. intros Hok. destruct m; try (cbn; done).
  - cbn. destruct stk as [|[items|d k] stk]; try done.
    intros Hc Hf. exists []. by eapply complete_object_finish.
  - apply after_value_rbrace_finish.
  - cbn. by intros [= <-].
  - cbn. replace (num_step ns rbrace) with (@None numstate) by by destruct ns.
    cbn. destruct (num_final ns); [|done].
    destruct (complete _ stk) as [st1|]; [|done].
    apply after_value_rbrace_finish.
  - unfold step. destruct rest as [|r rest]; [done|].
    destruct (N.eqb_spec rbrace r) as [<-|]; [|done].
    red in Hok. cbn in Hok. inversion Hok as [|? ? [_ Hhi] _].
    unfold rbrace in Hhi. lia.
Qed.

(** [json.loads] of a text that ends in a brace is a [dict]. *)
Lemma json_loads_braced s v :
  endswith s rbrace = true → json_loads s = Some v → ∃ d, v = JObj d.
Proof.
  intros [x ->]%endswith_inv. unfold json_loads. rewrite run_app.
  destruct (run (MValue, []) x) as [st|] eqn:Hx; [|done]. simpl.
  destruct (step st rbrace) as [st'|] eqn:Hs; [|done].
  apply step_rbrace_finish with st; [|done].
  by apply (run_lit_ok x (MValue, [])).
Qed.

Lemma dict_set_not_nil k v d : dict_set k v d ≠ [].
Proof.
  destruct d as [|[k' v'] d]; simpl; [done|]. by destruct (text_eqb k k').
Qed.

(** What the normalisation returns is the parsed [dict], with at most its
    [options] replaced. *)
Lemma parse_quiz_object s quiz :
  parse_quiz (sanitize_json_output s) = Ok quiz → ∃ d, quiz = JObj d.
Proof.
  unfold parse_quiz.
  destruct (json_loads (sanitize_json_output s)) as [v|] eqn:Hl; [|done].
  destruct (json_loads_braced _ _ (sanitize_endswith s) Hl) as [d ->].
  cbn [py_contains py_getitem py_setitem].
  destruct (dict_mem (cp "options") d); [|intros [= <-]; by eexists].
  destruct (dict_get (cp "options") d) as [o|]; [|done].
  destruct (py_len o) as [n|]; [|done].
  destruct (4 <? n)%nat; [|intros [= <-]; by eexists].
  destruct (py_slice_to 4 o); [|done]. intros [= <-]. by eexists.
Qed.

(** ** The pipeline of [/process-podcast] (C7) *)

(** Case analysis on the answer of the next service. *)
Ltac oracle :=
  match goal with
  | |- context [write_upload ?E ?p ?c] =>
      destruct (write_upload E p c) as [[]|?] eqn:?
  | |- context [whisper_transcribe ?E ?c] =>
      destruct (whisper_transcribe E c) as [?|?] eqn:?
  | |- context [chat_completion ?E ?p] =>
      destruct (chat_completion E p) as [?|?] eqn:?
  | |- context [parse_quiz ?s] => destruct (parse_quiz s) as [?|[]] eqn:?
  | |- context [smtp_sendmail ?E ?a ?b] =>
      destruct (smtp_sendmail E a b) as [[]|?] eqn:?
  | |- context [sqlite_insert ?E ?a ?b ?c ?d] =>
      destruct (sqlite_insert E a b c d) as [[]|?] eqn:?
  | |- context [files ?w !! ?p] => destruct (files w !! p) eqn:?
  end.

Ltac mstep :=
  cbn [try_finally try_except bind lift ret raise external print
       set_files set_podcast_data set_quiz_storage except_JSONDecodeError
       quiz_storage podcast_data files stdout calls fst snd is_ok];
  rewrite ?lookup_insert_eq.

Ltac unfold_program :=
  unfold upload_audio, try_finally, try_except, bind, lift, ret, raise,
    set_files, transcribe_audio, generate_summary, generate_key_takeaways,
    generate_quiz_question, send_detail, send_email, save_podcast_data,
    except_JSONDecodeError, set_podcast_data, external, print.

(** Every run of [upload_audio]: the calls it adds, its result, and what
    it leaves in the table and in the quiz store. *)
Lemma upload_audio_run E filename content w :
  let '(r, w') := upload_audio E filename content w in
  ∃ tr,
    calls w' = calls w ++ tr
    ∧ (∃ k, steps tr = take k pipeline)
    ∧ Forall (fun c => c.2 = true) (removelast tr)
    ∧ quiz_storage w' = quiz_storage w
    ∧ match r with
      | Ok p =>
          steps tr = pipeline
          ∧ Forall (fun c => c.2 = true) tr
          ∧ podcast_data w' =
            podcast_data w ++
            [{| row_id := next_row_id (podcast_data w);
                row_transcript := p_transcript p;
                row_summary := p_summary p;
                row_takeaways := json_dumps E (JArr (map JStr (p_takeaways p)));
                row_quiz := json_dumps E (p_quiz p) |}]
      | Raise e =>
          (∃ cause, e = HTTPException 500 (cp "Processing failed: ") (Some cause))
          ∧ podcast_data w' = podcast_data w
      end.
Proof.
  unfold_program. mstep. repeat (oracle; mstep).
  all: eexists; split; [rewrite <- ?app_assoc; try reflexivity; by rewrite app_nil_r|].
  all: cbn [app steps map step_of fst snd removelast].
  all: split; [first [by exists 0%nat | by exists 1%nat | by exists 2%nat
                     | by exists 3%nat | by exists 4%nat | by exists 5%nat
                     | by exists 6%nat]|].
  all: split; [repeat constructor|].
  all: split; [reflexivity|].
  all: try (split; [by eexists|reflexivity]).
  all: split; [reflexivity|]; split; [repeat constructor|reflexivity].
Qed.

(** C7 (amended): one upload runs transcription, summarization, takeaway
    extraction, quiz generation, notification and then persistence, in that
    order.  No call follows a failed one; a failure of any step reaches the
    caller as a single HTTP 500 and leaves the table as it was; a success
    means every step ran and exactly the new row was added. *)
Theorem upload_audio_pipeline E filename content w :
  let '(r, w') := upload_audio E filename content w in
  ∃ tr,
    calls w' = calls w ++ tr
    ∧ (∃ k, steps tr = take k pipeline)
    ∧ Forall (fun c => c.2 = true) (removelast tr)
    ∧ match r with
      | Ok p =>
          steps tr = pipeline
          ∧ Forall (fun c => c.2 = true) tr
          ∧ podcast_data w' =
            podcast_data w ++
            [{| row_id := next_row_id (podcast_data w);
                row_transcript := p_transcript p;
                row_summary := p_summary p;
                row_takeaways := json_dumps E (JArr (map JStr (p_takeaways p)));
                row_quiz := json_dumps E (p_quiz p) |}]
      | Raise e =>
          (∃ cause, e = HTTPException 500 (cp "Processing failed: ") (Some cause))
          ∧ podcast_data w' = podcast_data w
      end.
Proof.
  pose proof (upload_audio_run E filename content w) as H.
  destruct (upload_audio E filename content w) as [r w'].
  destruct H as (tr & Hc & Hk & Hl & _ & Hr). by exists tr.
Qed.

(** C7 as stated fails: the mail is sent before the row is written, so the
    order is not the specification's, and when the INSERT fails the
    notification is already out. *)
Lemma upload_audio_order_counterexample :
  steps (calls (upload_audio (env_replying (cp "{}")) (cp "a.mp3") (cp "RIFF")
                  initial_world).2)
    = [Transcription; Summarization; TakeawayExtraction; QuizGeneration;
       Notification; Persistence]
  ∧ steps (calls (upload_audio (env_replying (cp "{}")) (cp "a.mp3") (cp "RIFF")
                    initial_world).2) ≠ spec_pipeline
  ∧ is_ok (upload_audio env_insert_failing (cp "a.mp3") (cp "RIFF") initial_world).1
    = false
  ∧ map (fun c => (step_of c.1, c.2))
        (calls (upload_audio env_insert_failing (cp "a.mp3") (cp "RIFF")
                  initial_world).2)
    = [(Transcription, true); (Summarization, true); (TakeawayExtraction, true);
       (QuizGeneration, true); (Notification, true); (Persistence, false)].
Proof. repeat split; try by vm_compute. Qed.

(** ** The quiz store (C5, C6, C10) *)

Ltac unfold_quiz :=
  unfold api_quiz, submit_quiz_answer, try_except, bind, lift, ret, raise,
    generate_quiz_question, except_JSONDecodeError, set_quiz_storage,
    external, print.

(** Every run of [api_quiz]: a registration under [str(len + 1)], or an
    HTTP 500 that leaves the store as it was. *)
Lemma api_quiz_run E txt w :
  let '(r, w') := api_quiz E txt w in
  match r with
  | Ok (quiz_id, quiz) =>
      quiz_id = py_str (size (quiz_storage w) + 1)
      ∧ (∃ d, quiz = JObj d ∧ d ≠ [])
      ∧ quiz_storage w' = <[quiz_id := quiz]> (quiz_storage w)
  | Raise e =>
      (∃ cause, e = HTTPException 500 (cp "Quiz generation failed: ") (Some cause))
      ∧ quiz_storage w' = quiz_storage w
  end.
Proof.
  unfold_quiz. mstep.
  destruct (chat_completion E (quiz_prompt txt)) as [content|e]; mstep;
    [|by eauto].
  destruct (parse_quiz _) as [quiz|[]] eqn:Hp; mstep; cbn [py_not]; mstep;
    try by eauto.
  destruct (parse_quiz_object _ _ Hp) as [d ->].
  destruct d as [|kv d]; cbn [py_not]; mstep; [by eauto|].
  split; [done|]. split; [|done]. by eexists.
Qed.

(** A registration, once the model has answered with a text on which the
    normalisation returns a non-empty record. *)
Lemma api_quiz_registers E txt content quiz w :
  chat_completion E (quiz_prompt txt) = Ok content →
  parse_quiz (sanitize_json_output (strip content)) = Ok quiz →
  py_not quiz = false →
  ∃ w', api_quiz E txt w = (Ok (py_str (size (quiz_storage w) + 1), quiz), w')
        ∧ quiz_storage w' = <[py_str (size (quiz_storage w) + 1) := quiz]> (quiz_storage w).
Proof.
  intros Hc Hp Hq. unfold_quiz. rewrite Hc. mstep. rewrite Hp. mstep.
  rewrite Hq. mstep. eexists. split; reflexivity.
Qed.

Lemma submit_quiz_answer_world E quiz_id answer w :
  (submit_quiz_answer E quiz_id answer w).2 = w.
Proof.
  unfold_quiz. destruct (quiz_storage w !! quiz_id) as [quiz|]; [|done].
  destruct (py_not quiz); [done|].
  destruct (py_getitem quiz (cp "correct_answer")) as [v|]; [|done].
  by destruct (strip_lower E v).
Qed.

Lemma cp_inj : Inj (=) (=) cp.
Proof.
  assert (Inj (=) (=) N_of_ascii) as Hinj.
  { intros x y Hxy.
    rewrite <- (ascii_N_embedding x), <- (ascii_N_embedding y). by rewrite Hxy. }
  intros a b H. unfold cp in H.
  apply (list_fmap_eq_inj N_of_ascii Hinj) in H.
  rewrite <- (string_of_list_ascii_of_string a),
          <- (string_of_list_ascii_of_string b). by rewrite H.
Qed.

Lemma py_str_inj : Inj (=) (=) py_str.
Proof. intros a b H. unfold py_str in H. by apply cp_inj, (inj pretty) in H. Qed.

Lemma store_wf_empty : store_wf ∅.
Proof.
  intros k. rewrite lookup_empty, map_size_empty. split.
  - by intros [? ?].
  - intros (i & ? & _). lia.
Qed.

Lemma store_wf_fresh m : store_wf m → m !! py_str (size m + 1) = None.
Proof.
  intros Hwf. apply eq_None_not_Some. intros (i & Hi & Heq)%Hwf.
  apply py_str_inj in Heq. lia.
Qed.

Lemma store_wf_insert m v : store_wf m → store_wf (<[py_str (size m + 1) := v]> m).
Proof.
  intros Hwf k. rewrite map_size_insert_None by by apply store_wf_fresh.
  destruct (decide (k = py_str (size m + 1))) as [->|Hne].
  - rewrite lookup_insert_eq. split; [|by eauto].
    intros _. exists (size m + 1)%nat. split; [lia|done].
  - rewrite lookup_insert_ne by done. rewrite (Hwf k). split.
    + intros (i & Hi & ->). exists i. split; [lia|done].
    + intros (i & Hi & ->). exists i. split; [|done].
      destruct (decide (i = size m + 1)%nat) as [->|]; [done|lia].
Qed.

(** A session keeps the identifiers dense: what it registers gets the
    next numbers, and nothing registered is lost or replaced. *)
Lemma serve_invariant session : ∀ w,
  store_wf (quiz_storage w) →
  let '(rs, w') := serve session w in
  store_wf (quiz_storage w')
  ∧ map fst (issued rs)
    = map py_str (seq (S (size (quiz_storage w))) (length (issued rs)))
  ∧ size (quiz_storage w') = (size (quiz_storage w) + length (issued rs))%nat
  ∧ (∀ k v, quiz_storage w !! k = Some v → quiz_storage w' !! k = Some v)
  ∧ Forall (fun p => quiz_storage w' !! p.1 = Some p.2) (issued rs)
  ∧ Forall (fun p => ∃ d, p.2 = JObj d ∧ d ≠ []) (issued rs).
Proof.
  induction session as [|[E req] session IH]; intros w Hwf.
  { cbn. split; [done|]. split; [done|]. split; [lia|].
    split; [done|]. split; constructor. }
  cbn [serve].
  assert (∀ r w1, quiz_storage w1 = quiz_storage w →
            issued [r] = [] →
            let '(rs, w') := serve session w1 in
            store_wf (quiz_storage w')
            ∧ map fst (issued (r :: rs))
              = map py_str (seq (S (size (quiz_storage w))) (length (issued (r :: rs))))
            ∧ size (quiz_storage w')
              = (size (quiz_storage w) + length (issued (r :: rs)))%nat
            ∧ (∀ k v, quiz_storage w !! k = Some v → quiz_storage w' !! k = Some v)
            ∧ Forall (fun p => quiz_storage w' !! p.1 = Some p.2) (issued (r :: rs))
            ∧ Forall (fun p => ∃ d, p.2 = JObj d ∧ d ≠ []) (issued (r :: rs)))
    as Hsame.
  { intros r w1 Hst Hr. specialize (IH w1). rewrite Hst in IH.
    destruct (serve session w1) as [rs w'].
    replace (issued (r :: rs)) with (issued rs)
      by (change (r :: rs) with ([r] ++ rs); unfold issued in *;
          by rewrite omap_app, Hr).
    by apply IH. }
  destruct req as [txt|quiz_id answer|filename content]; cbn [handle].
  - pose proof (api_quiz_run E txt w) as Hrun.
    destruct (api_quiz E txt w) as [[[quiz_id quiz]|e] w1].
    + destruct Hrun as (-> & Hobj & Hst).
      specialize (IH w1). rewrite Hst in IH.
      specialize (IH (store_wf_insert _ quiz Hwf)).
      rewrite map_size_insert_None in IH by by apply store_wf_fresh.
      destruct (serve session w1) as [rs w'].
      destruct IH as (Hwf' & Hids & Hsize & Hmono & Hall & Hobjs).
      change (issued (QuizResponse (Ok (py_str (size (quiz_storage w) + 1), quiz)) :: rs))
        with ((py_str (size (quiz_storage w) + 1), quiz) :: issued rs).
      cbn [map fst length seq].
      split; [done|]. split; [|split; [lia|split; [|split]]].
      * rewrite Hids. by rewrite Nat.add_1_r.
      * intros k v Hk. apply Hmono.
        rewrite lookup_insert_ne; [done|]. intros <-.
        by rewrite store_wf_fresh in Hk.
      * constructor; [|done]. apply Hmono. cbn. apply lookup_insert_eq.
      * by constructor.
    + destruct Hrun as [_ Hst].
      pose proof (Hsame (QuizResponse (Raise e)) w1 Hst eq_refl) as H.
      by destruct (serve session w1) as [rs w'].
  - pose proof (submit_quiz_answer_world E quiz_id answer w) as Hw.
    destruct (submit_quiz_answer E quiz_id answer w) as [r w1].
    cbn in Hw. subst w1.
    pose proof (Hsame (VerdictResponse r) w eq_refl eq_refl) as H.
    by destruct (serve session w) as [rs w'].
  - pose proof (upload_audio_run E filename content w) as Hrun.
    destruct (upload_audio E filename content w) as [r w1].
    destruct Hrun as (tr & _ & _ & _ & Hst & _).
    pose proof (Hsame (ProcessedResponse r) w1 Hst eq_refl) as H.
    by destruct (serve session w1) as [rs w'].
Qed.

(** C5: [api_quiz] registers a record under [str(len(quiz_storage) + 1)]
    and the store then maps that identifier to the record; over a whole
    session, whatever the requests and the services' answers, the
    identifiers issued are [str(1)], [str(2)], ... in order, hence distinct,
    and at the end each of them still leads to the record registered under
    it. *)
Theorem quiz_ids_roundtrip_and_distinct :
  (∀ E txt w quiz_id quiz w',
     api_quiz E txt w = (Ok (quiz_id, quiz), w') →
     quiz_id = py_str (size (quiz_storage w) + 1)
     ∧ quiz_storage w' !! quiz_id = Some quiz)
  ∧ (∀ session,
       let '(rs, w) := serve session initial_world in
       map fst (issued rs) = map py_str (seq 1 (length (issued rs)))
       ∧ NoDup (map fst (issued rs))
       ∧ size (quiz_storage w) = length (issued rs)
       ∧ Forall (fun p => quiz_storage w !! p.1 = Some p.2) (issued rs)
       ∧ Forall (fun p => ∃ d, p.2 = JObj d ∧ d ≠ []) (issued rs)).
Proof.
  split.
  - intros E txt w quiz_id quiz w' Hrun.
    pose proof (api_quiz_run E txt w) as H. rewrite Hrun in H.
    destruct H as (-> & _ & ->). split; [done|]. apply lookup_insert_eq.
  - intros session.
    pose proof (serve_invariant session initial_world store_wf_empty) as H.
    destruct (serve session initial_world) as [rs w].
    destruct H as (_ & Hids & Hsize & _ & Hall & Hobjs).
    cbn in Hids, Hsize. rewrite map_size_empty in Hids.
    split; [done|]. split; [|by split].
    rewrite Hids. apply NoDup_fmap; [apply py_str_inj|apply NoDup_seq].
Qed.

Lemma quiz_ids_roundtrip_and_distinct_witness :
  (api_quiz (env_replying (dq "{'question':'Q','correct_answer':'a'}"))
     (cp "text") initial_world).1
    = Ok (cp "1", JObj [(cp "question", JStr (cp "Q"));
                        (cp "correct_answer", JStr (cp "a"))])
  ∧ quiz_storage
      (api_quiz (env_replying (dq "{'question':'Q','correct_answer':'a'}"))
         (cp "text") initial_world).2 !! cp "1"
    = Some (JObj [(cp "question", JStr (cp "Q"));
                  (cp "correct_answer", JStr (cp "a"))]).
Proof.
  destruct quiz_ids_roundtrip_and_distinct as [Hreg _].
  split; [by vm_compute|].
  apply (Hreg (env_replying (dq "{'question':'Q','correct_answer':'a'}"))
              (cp "text") initial_world (cp "1")).
  by vm_compute.
Defined.

(** C6: an identifier that was never registered gives "404 Quiz not found";
    for a stored record with a string [correct_answer], the verdict says
    whether the answer and the stored answer are equal after [strip] and
    [lower], and carries the stored answer whether they are or not. *)
Theorem submit_quiz_answer_validates E w quiz_id answer :
  (quiz_storage w !! quiz_id = None →
   submit_quiz_answer E quiz_id answer w
   = (Raise (HTTPException 404 (cp "Quiz not found.") None), w))
  ∧ (∀ quiz stored,
       quiz_storage w !! quiz_id = Some (JObj quiz) →
       dict_get (cp "correct_answer") quiz = Some (JStr stored) →
       submit_quiz_answer E quiz_id answer w
       = (Ok {| v_quiz_id := quiz_id;
                correct := text_eqb (str_lower E (strip answer))
                                    (str_lower E (strip stored));
                correct_answer := JStr stored |}, w)).
Proof.
  split.
  - intros Hnone. unfold submit_quiz_answer. by rewrite Hnone.
  - intros quiz stored Hsome Hget. unfold submit_quiz_answer. rewrite Hsome.
    destruct quiz as [|kv quiz]; [done|].
    unfold_quiz. cbn [py_not py_getitem]. rewrite Hget. reflexivity.
Qed.

(** The example of the specification: [" A "] matches the stored ["a"]. *)
Lemma submit_quiz_answer_validates_witness :
  let w := world_with_quiz (JObj [(cp "question", JStr (cp "Q"));
                                  (cp "correct_answer", JStr (cp "a"))]) in
  submit_quiz_answer (env_replying []) (cp "2") (cp " A ") w
  = (Raise (HTTPException 404 (cp "Quiz not found.") None), w)
  ∧ submit_quiz_answer (env_replying []) (cp "1") (cp " A ") w
    = (Ok {| v_quiz_id := cp "1"; correct := true;
             correct_answer := JStr (cp "a") |}, w)
  ∧ submit_quiz_answer (env_replying []) (cp "1") (cp "b") w
    = (Ok {| v_quiz_id := cp "1"; correct := false;
             correct_answer := JStr (cp "a") |}, w).
Proof.
  intros w. split; [|split].
  - apply (submit_quiz_answer_validates (env_replying []) w (cp "2") (cp " A ")).
    by vm_compute.
  - apply (proj2 (submit_quiz_answer_validates (env_replying []) w (cp "1") (cp " A "))
             [(cp "question", JStr (cp "Q")); (cp "correct_answer", JStr (cp "a"))]
             (cp "a")); by vm_compute.
  - apply (proj2 (submit_quiz_answer_validates (env_replying []) w (cp "1") (cp "b"))
             [(cp "question", JStr (cp "Q")); (cp "correct_answer", JStr (cp "a"))]
             (cp "a")); by vm_compute.
Defined.

(** C10 (amended): no key is checked.  Every non-empty record that the
    normalisation returns is registered under the next identifier, whatever
    its keys; and submitting an answer for a stored record without
    [correct_answer] raises a [KeyError] that nothing catches. *)
Theorem quiz_registered_without_key_check :
  (∀ E txt content quiz w,
     chat_completion E (quiz_prompt txt) = Ok content →
     parse_quiz (sanitize_json_output (strip content)) = Ok quiz →
     py_not quiz = false →
     ∃ w', api_quiz E txt w = (Ok (py_str (size (quiz_storage w) + 1), quiz), w')
           ∧ quiz_storage w'
             = <[py_str (size (quiz_storage w) + 1) := quiz]> (quiz_storage w))
  ∧ (∀ E w quiz_id answer quiz,
       quiz_storage w !! quiz_id = Some (JObj quiz) →
       quiz ≠ [] →
       dict_get (cp "correct_answer") quiz = None →
       submit_quiz_answer E quiz_id answer w
       = (Raise (KeyError (cp "correct_answer")), w)).
Proof.
  split.
  - intros E txt content quiz w. apply api_quiz_registers.
  - intros E w quiz_id answer quiz Hsome Hne Hget.
    unfold submit_quiz_answer. rewrite Hsome.
    destruct quiz as [|kv quiz]; [done|].
    unfold_quiz. cbn [py_not py_getitem]. rewrite Hget. reflexivity.
Qed.

Lemma quiz_registered_without_key_check_witness :
  (api_quiz (env_replying (dq "{'foo': 1}")) (cp "text") initial_world).1
    = Ok (cp "1", JObj [(cp "foo", JInt 1)])
  ∧ submit_quiz_answer (env_replying []) (cp "1") (cp "a")
      (world_with_quiz (JObj [(cp "foo", JInt 1)]))
    = (Raise (KeyError (cp "correct_answer")),
       world_with_quiz (JObj [(cp "foo", JInt 1)])).
Proof.
  destruct quiz_registered_without_key_check as [Hreg Hsub]. split.
  - destruct (Hreg (env_replying (dq "{'foo': 1}")) (cp "text") (dq "{'foo': 1}")
                (JObj [(cp "foo", JInt 1)]) initial_world eq_refl eq_refl eq_refl)
      as (w' & -> & _).
    reflexivity.
  - apply (Hsub _ _ _ _ [(cp "foo", JInt 1)]); by vm_compute.
Defined.

(** C10 as stated fails: [{"options": 5}] parses as a non-empty object, yet
    it is not registered, because the normalisation raises on it. *)
Lemma quiz_not_registered_counterexample :
  json_loads (sanitize_json_output (strip (dq "{'options': 5}")))
    = Some (JObj [(cp "options", JInt 5)])
  ∧ api_quiz (env_replying (dq "{'options': 5}")) (cp "text") initial_world
    = (Raise (HTTPException 500 (cp "Quiz generation failed: ") (Some TypeError)),
       (api_quiz (env_replying (dq "{'options': 5}")) (cp "text") initial_world).2)
  ∧ quiz_storage
      (api_quiz (env_replying (dq "{'options': 5}")) (cp "text") initial_world).2
    = ∅.
Proof. repeat split; by vm_compute. Qed.

(** ** The table (C8) *)

Lemma insert_desc_not_nil r l : insert_desc r l ≠ [].
Proof. destruct l as [|x l]; simpl; [done|]. by destruct (row_id x <? row_id r)%Z. Qed.

Lemma order_by_id_desc_not_nil tbl : tbl ≠ [] → order_by_id_desc tbl ≠ [].
Proof. destruct tbl as [|r tbl]; [done|]. intros _. apply insert_desc_not_nil. Qed.

(** C8 fails on the code: [get_all_podcasts] selects three columns and
    unpacks each tuple into two names, so it raises a [ValueError] as soon
    as the table holds a row; only the empty table gives a result. *)
Theorem get_all_podcasts_raises_on_rows tbl :
  tbl ≠ [] → get_all_podcasts tbl = Raise ValueError.
Proof.
  intros Hne. unfold get_all_podcasts.
  pose proof (order_by_id_desc_not_nil tbl Hne) as Ho.
  by destruct (order_by_id_desc tbl) as [|r rows].
Qed.

Lemma get_all_podcasts_raises_on_rows_witness :
  get_all_podcasts one_row = Raise ValueError
  ∧ get_latest_podcast_data one_row
    = Ok (Some {| summary := SqlText (cp "greeting");
                  takeaways := JArr [JStr (cp "be kind")] |}).
Proof.
  split; [|reflexivity].
  apply get_all_podcasts_raises_on_rows. discriminate.
Defined.

(** * Further properties *)

(** ** The repair *)






(** ** The decoder and white space *)

Lemma json_loads_ws_cons c s : is_json_ws c = true → json_loads (c :: s) = json_loads s.
Proof. intros Hc. unfold json_loads. cbn [run]. unfold step. by rewrite Hc. Qed.

Lemma json_loads_lstrip s v : json_loads s = Some v → json_loads (lstrip s) = Some v.
Proof.
  induction s as [|c s IH]; [done|]. simpl.
  destruct (isspace c) eqn:Hc; [|done].
  destruct (is_json_ws c) eqn:Hw.
  - rewrite json_loads_ws_cons by done. apply IH.
  - unfold json_loads. cbn [run]. unfold step.
    by rewrite Hw, isspace_not_start.
Qed.

Lemma space_not_json_token c :
  isspace c = true →
  c ≠ dquote ∧ c ≠ rbrace ∧ c ≠ rbracket ∧ c ≠ comma ∧ c ≠ 58 ∧ c ≠ 92
  ∧ c ≠ 117 ∧ escape_char c = None ∧ hex_val c = None
  ∧ (∀ ns, num_step ns c = None) ∧ (c =? 73) = false.
Proof.
  intros Hs.
  assert (c ≤ 32 ∨ c = 133 ∨ 160 ≤ c) as Hr.
  { unfold isspace in Hs.
    rewrite ?orb_true_iff, ?andb_true_iff, ?N.leb_le, ?N.eqb_eq in Hs. lia. }
  assert (∀ k, 32 < k < 133 → (c =? k) = false) as Hne.
  { intros k Hk. apply N.eqb_neq. lia. }
  assert (is_digit c = false) as Hd.
  { unfold is_digit. apply andb_false_iff.
    rewrite !N.leb_gt. lia. }
  repeat split; try (intros ->; by vm_compute in Hs).
  - unfold escape_char. by rewrite !Hne by lia.
  - unfold hex_val. rewrite Hd.
    replace ((97 <=? c) && (c <=? 102)) with false
      by (symmetry; apply andb_false_iff; rewrite !N.leb_gt; lia).
    replace ((65 <=? c) && (c <=? 70)) with false
      by (symmetry; apply andb_false_iff; rewrite !N.leb_gt; lia).
    done.
  - intros ns. unfold num_step. rewrite Hd, !Hne by lia. by destruct ns.
  - apply Hne. lia.
Qed.

Lemma complete_finish v stk st w :
  complete v stk = Some st → finish st = Some w → w = v ∧ stk = [].
Proof.
  destruct stk as [|[items|d [k|]] stk]; simpl; intros [= <-]; simpl; [|done..].
  by intros [= <-].
Qed.

(** Trailing white space adds nothing: what the decoder yields after it, it
    had already. *)
Lemma step_space_finish st st' c v :
  lit_ok st → isspace c = true →
  step st c = Some st' → finish st' = Some v → finish st = Some v.
Proof.
  intros Hok Hs.
  destruct (space_not_json_token c Hs)
    as (Hq & Hrb & Hrk & Hco & Hcl & Hbs & Hu & Hesc & Hhex & Hnum & HI).
  apply N.eqb_neq in Hq, Hrb, Hrk, Hco, Hcl, Hbs, Hu.
  assert (∀ stk, start_value c stk = None ∨ is_json_ws c = true) as Hsv.
  { intros stk. destruct (is_json_ws c) eqn:Hw; [by right|left].
    by apply isspace_not_start. }
  assert (∀ s0 s1, after_value s0 c = Some s1 → finish s1 = Some v →
                   finish s0 = Some v) as Hav.
  { intros [m0 stk0] s1. unfold after_value.
    destruct (is_json_ws c); [by intros [= <-]|].
    destruct m0; try done.
    destruct stk0 as [|[items|d [k|]] stk0]; try done; by rewrite Hco, ?Hrk, ?Hrb. }
  destruct st as [m stk]. destruct m; unfold step.
  - destruct (is_json_ws c); [by intros [= <-]|].
    by destruct (Hsv stk) as [->|].
  - destruct (is_json_ws c); [by intros [= <-]|]. rewrite Hrk.
    by destruct (Hsv stk) as [->|].
  - destruct (is_json_ws c); [by intros [= <-]|]. by rewrite Hrb, Hq.
  - destruct (is_json_ws c); [by intros [= <-]|]. by rewrite Hq.
  - destruct (is_json_ws c); [by intros [= <-]|]. by rewrite Hcl.
  - apply Hav.
  - apply Hav.
  - rewrite Hq, Hbs. destruct (c <? 32); [done|]. by intros [= <-].
  - by rewrite Hu, Hesc.
  - by rewrite Hhex.
  - rewrite Hnum, HI. cbn [andb].
    destruct (num_final ns) eqn:Hf; [|done].
    destruct (complete _ stk) as [st1|] eqn:Hc; [|done].
    intros Ha Hfin. pose proof (Hav _ _ Ha Hfin) as H1.
    destruct (complete_finish _ _ _ _ Hc H1) as [-> ->].
    cbn. by rewrite Hf.
  - destruct rest as [|r rest]; [done|].
    destruct (N.eqb_spec c r) as [<-|]; [|done].
    red in Hok. cbn in Hok. inversion Hok as [|? ? [Hlo Hhi] _].
    exfalso. unfold isspace in Hs.
    rewrite ?orb_true_iff, ?andb_true_iff, ?N.leb_le, ?N.eqb_eq in Hs. lia.
Qed.

Lemma json_loads_snoc_space x c v :
  isspace c = true → json_loads (x ++ [c]) = Some v → json_loads x = Some v.
Proof.
  intros Hs. unfold json_loads. rewrite run_app.
  destruct (run (MValue, []) x) as [st|] eqn:Hx; [|done]. cbn [run].
  destruct (step st c) as [st'|] eqn:Hst; [|done].
  apply step_space_finish with c; try done.
  by apply (run_lit_ok x (MValue, [])).
Qed.

Lemma rstrip_snoc_space x c : isspace c = true → rstrip (x ++ [c]) = rstrip x.
Proof. intros Hs. unfold rstrip. rewrite rev_app_distr. simpl. by rewrite Hs. Qed.

Lemma json_loads_rstrip s v : json_loads s = Some v → json_loads (rstrip s) = Some v.
Proof.
  induction s as [|c s IH] using rev_ind; [done|].
  destruct (isspace c) eqn:Hs.
  - rewrite rstrip_snoc_space by done. intros H. by eapply IH, json_loads_snoc_space.
  - by rewrite rstrip_snoc.
Qed.

(** [json.loads] does not see the white space that [strip] removes. *)
Lemma json_loads_strip s v : json_loads s = Some v → json_loads (strip s) = Some v.
Proof. intros H. unfold strip. by apply json_loads_rstrip, json_loads_lstrip. Qed.

Lemma rstrip_last s c : last (rstrip s) = Some c → isspace c = false.
Proof.
  induction s as [|d s IH] using rev_ind; [done|].
  destruct (isspace d) eqn:Hd.
  - by rewrite rstrip_snoc_space.
  - rewrite rstrip_snoc, last_snoc by done. by intros [= <-].
Qed.

(** *** Objects end in a brace *)

Lemma complete_lit_scalar v stk st : complete v stk = Some st → lit_scalar st.
Proof. destruct stk as [|[items|d [k|]] stk]; intros [= <-]; exact I. Qed.

Lemma after_value_lit_scalar st c st' :
  after_value st c = Some st' → lit_scalar st → lit_scalar st'.
Proof.
  destruct st as [m stk]. unfold after_value.
  destruct (is_json_ws c); [by intros [= <-]|].
  destruct m; try done.
  destruct stk as [|[items|d [k|]] stk]; try done.
  - destruct (c =? comma); [by intros [= <-]|].
    destruct (c =? rbracket); [|done]. intros H _. by eapply complete_lit_scalar.
  - destruct (c =? comma); [by intros [= <-]|].
    destruct (c =? rbrace); [|done]. intros H _. by eapply complete_lit_scalar.
Qed.

Lemma start_value_lit_scalar c stk st : start_value c stk = Some st → lit_scalar st.
Proof.
  unfold start_value.
  repeat (case_match; [intros [= <-]; exact I|]). done.
Qed.

Lemma step_lit_scalar st c st' : lit_scalar st → step st c = Some st' → lit_scalar st'.
Proof.
  destruct st as [m stk]. intros Hok. destruct m; unfold step.
  - destruct (is_json_ws c); [by intros [= <-]|]. apply start_value_lit_scalar.
  - destruct (is_json_ws c); [by intros [= <-]|].
    destruct (c =? rbracket); [|apply start_value_lit_scalar].
    destruct stk as [|[items|d k] stk]; try done. apply complete_lit_scalar.
  - destruct (is_json_ws c); [by intros [= <-]|].
    destruct (c =? rbrace).
    + destruct stk as [|[items|d k] stk]; try done. apply complete_lit_scalar.
    + destruct (c =? dquote); [by intros [= <-]|done].
  - destruct (is_json_ws c); [by intros [= <-]|].
    destruct (c =? dquote); [by intros [= <-]|done].
  - destruct (is_json_ws c); [by intros [= <-]|].
    destruct (c =? 58); [by intros [= <-]|done].
  - intros H. by eapply after_value_lit_scalar.
  - intros H. by eapply after_value_lit_scalar.
  - destruct (c =? dquote).
    + unfold end_string. destruct stk as [|[items|d [k|]] stk];
        intros [= <-]; exact I.
    + destruct (c =? 92); [by intros [= <-]|].
      destruct (c <? 32); [done|by intros [= <-]].
  - destruct (c =? 117); [by intros [= <-]|].
    destruct (escape_char c); [by intros [= <-]|done].
  - destruct (hex_val c); [|done]. destruct left as [|[|k]]; [done| |]; by intros [= <-].
  - destruct (num_step ns c); [by intros [= <-]|].
    destruct ((c =? 73) && bool_decide (ns = NMinus)); [by intros [= <-]|].
    destruct (num_final ns); [|done].
    destruct (complete _ stk) as [st1|] eqn:E; [|done].
    intros H. eapply after_value_lit_scalar; [done|]. by eapply complete_lit_scalar.
  - destruct rest as [|r rest]; [done|].
    destruct (c =? r); [|done].
    destruct rest as [|r' rest]; [apply complete_lit_scalar|].
    by intros [= <-].
Qed.

Lemma run_lit_scalar s : ∀ st st', lit_scalar st → run st s = Some st' → lit_scalar st'.
Proof.
  induction s as [|c s IH]; intros st st' Hok; simpl; [by intros [= <-]|].
  destruct (step st c) as [st1|] eqn:E; [|done].
  apply IH. by eapply step_lit_scalar.
Qed.

Lemma num_value_not_object ns lex d : num_value ns lex ≠ JObj d.
Proof. by destruct ns. Qed.

Lemma after_value_object st c st' d :
  after_value st c = Some st' → finish st' = Some (JObj d) →
  isspace c = true ∨ c = rbrace.
Proof.
  destruct st as [m stk]. unfold after_value.
  destruct (is_json_ws c) eqn:Hw; [left; by apply json_ws_isspace|].
  destruct m; try done.
  destruct stk as [|[items|d' [k|]] stk]; try done.
  - destruct (c =? comma); [by intros [= <-]|].
    destruct (c =? rbracket); [|done].
    intros Hc Hf. by destruct (complete_finish _ _ _ _ Hc Hf).
  - destruct (c =? comma); [by intros [= <-]|].
    destruct (N.eqb_spec c rbrace); [by right|done].
Qed.

(** The last character of a text that decodes to an object is white space
    or a brace. *)
Lemma step_object_finish st st' c d :
  lit_scalar st → step st c = Some st' → finish st' = Some (JObj d) →
  isspace c = true ∨ c = rbrace.
Proof.
  assert (∀ stk st', start_value c stk = Some st' → finish st' = Some (JObj d) → False)
    as Hsv.
  { intros stk s1. unfold start_value.
    repeat (case_match; [intros [= <-]; cbn; try done;
                         destruct stk; by try done|]).
    done. }
  destruct st as [m stk]. intros Hok. destruct m; unfold step.
  - destruct (is_json_ws c) eqn:Hw; [left; by apply json_ws_isspace|].
    intros H1 H2. by destruct (Hsv _ _ H1 H2).
  - destruct (is_json_ws c) eqn:Hw; [left; by apply json_ws_isspace|].
    destruct (c =? rbracket).
    + destruct stk as [|[items|d' k] stk]; try done.
      intros Hc Hf. by destruct (complete_finish _ _ _ _ Hc Hf).
    + intros H1 H2. by destruct (Hsv _ _ H1 H2).
  - destruct (is_json_ws c) eqn:Hw; [left; by apply json_ws_isspace|].
    destruct (N.eqb_spec c rbrace); [by right|].
    destruct (c =? dquote); [by intros [= <-]|done].
  - destruct (is_json_ws c) eqn:Hw; [left; by apply json_ws_isspace|].
    destruct (c =? dquote); [by intros [= <-]|done].
  - destruct (is_json_ws c) eqn:Hw; [left; by apply json_ws_isspace|].
    destruct (c =? 58); [by intros [= <-]|done].
  - apply after_value_object.
  - apply after_value_object.
  - destruct (c =? dquote).
    + unfold end_string. destruct stk as [|[items|d' [k|]] stk];
        intros [= <-]; done.
    + destruct (c =? 92); [by intros [= <-]|].
      destruct (c <? 32); [done|by intros [= <-]].
  - destruct (c =? 117); [by intros [= <-]|].
    destruct (escape_char c); [by intros [= <-]|done].
  - destruct (hex_val c); [|done]. destruct left as [|[|k]]; [done| |]; by intros [= <-].
  - destruct (num_step ns c) as [ns'|].
    { intros [= <-]. cbn. destruct stk; [|done].
      destruct (num_final ns'); [|done]. intros [= H].
      by destruct (num_value_not_object _ _ _ H). }
    destruct ((c =? 73) && bool_decide (ns = NMinus)); [by intros [= <-]|].
    destruct (num_final ns); [|done].
    destruct (complete _ stk) as [st1|] eqn:E; [|done].
    apply after_value_object.
  - destruct rest as [|r rest]; [done|].
    destruct (c =? r); [|done].
    destruct rest as [|r' rest]; [|by intros [= <-]].
    intros Hc Hf. destruct (complete_finish _ _ _ _ Hc Hf) as [<- _].
    by red in Hok.
Qed.

Lemma json_loads_object_last s d c :
  json_loads s = Some (JObj d) → last s = Some c → isspace c = true ∨ c = rbrace.
Proof.
  destruct s as [|c' x] using rev_ind; [done|].
  rewrite last_snoc. intros Hl [= ->]. revert Hl.
  unfold json_loads. rewrite run_app.
  destruct (run (MValue, []) x) as [st|] eqn:Hx; [|done]. cbn [run].
  destruct (step st c) as [st'|] eqn:Hst; [|done].
  apply step_object_finish with st; [|done].
  by apply (run_lit_scalar x (MValue, [])).
Qed.

Lemma strip_object_endswith s d :
  json_loads s = Some (JObj d) → endswith (strip s) rbrace = true.
Proof.
  intros Hl. apply json_loads_strip in Hl. unfold endswith.
  destruct (last (strip s)) as [c|] eqn:Hlast.
  - destruct (json_loads_object_last _ _ _ Hl Hlast) as [Hs| ->].
    + unfold strip in Hlast. apply rstrip_last in Hlast. congruence.
    + apply N.eqb_refl.
  - apply last_None in Hlast. by rewrite Hlast in Hl.
Qed.

(** X2: a text that already decodes to an object is still valid JSON after
    the repair, and decodes to the same object when the repair finds no
    comma to remove. *)
Theorem sanitize_keeps_valid_object s d :
  json_loads s = Some (JObj d) →
  json_valid (sanitize_json_output s) = true
  ∧ (re_sub (strip s) = strip s →
     json_loads (sanitize_json_output s) = Some (JObj d)).
Proof.
  intros Hl. pose proof (strip_object_endswith _ _ Hl) as He.
  assert (sanitize_json_output s = re_sub (strip s)) as ->.
  { unfold sanitize_json_output.
    destruct (endswith_inv _ _ He) as [x Hx]. rewrite Hx.
    destruct (re_sub_snoc x rbrace) as [y ->]; [done|]. by rewrite endswith_snoc. }
  split.
  - apply json_valid_accepts.
    apply (accepts_del _ _ (del_re_sub (strip s))); [exact I|].
    apply json_valid_accepts. unfold json_valid.
    by rewrite (json_loads_strip _ _ Hl), bool_decide_true.
  - intros ->. by apply json_loads_strip.
Qed.

Lemma sanitize_keeps_valid_object_witness :
  json_valid (sanitize_json_output (dq "  {'a': 'x, }', 'b': [1, 2]}  ")) = true
  ∧ json_loads (sanitize_json_output (dq " {'a': [1, 2]} "))
    = Some (JObj [(cp "a", JArr [JInt 1; JInt 2])]).
Proof.
  split.
  - apply (sanitize_keeps_valid_object (dq "  {'a': 'x, }', 'b': [1, 2]}  ")
             [(cp "a", JStr (cp "x, }")); (cp "b", JArr [JInt 1; JInt 2])]).
    reflexivity.
  - apply (sanitize_keeps_valid_object (dq " {'a': [1, 2]} ")
             [(cp "a", JArr [JInt 1; JInt 2])]); reflexivity.
Defined.

(** ** What [generate_quiz_question] returns *)

Lemma dict_mem_get_none k d : dict_mem k d = false → dict_get k d = None.
Proof.
  induction d as [|[k' v'] d IH]; simpl; [done|].
  destruct (text_eqb k k'); [done|]. apply IH.
Qed.

Lemma py_slice_to_len n v cut :
  py_slice_to n v = Ok cut → ∃ m, py_len cut = Ok m ∧ (m ≤ n)%nat.
Proof.
  destruct v; simpl; try done; intros [= <-]; simpl; eexists; split; try done;
    rewrite length_take; lia.
Qed.

(** The normalisation leaves an [options] of length at most four. *)
Lemma parse_quiz_options_bound s quiz :
  parse_quiz s = Ok (JObj quiz) →
  ∀ v, dict_get (cp "options") quiz = Some v →
       ∃ n, py_len v = Ok n ∧ (n ≤ 4)%nat.
Proof.
  unfold parse_quiz. destruct (json_loads s) as [parsed|]; [|done].
  destruct parsed as [| | | |str|items|members]; try done.
  { cbn [py_contains py_getitem]. by destruct (text_infixb _ _). }
  { cbn [py_contains py_getitem]. by destruct (existsb _ _). }
  cbn [py_contains py_getitem py_setitem].
  destruct (dict_mem (cp "options") members) eqn:Hm.
  - destruct (dict_get (cp "options") members) as [o|] eqn:Hg; [|done].
    destruct (py_len o) as [n|] eqn:Hn; [|done].
    destruct (Nat.ltb_spec 4 n).
    + destruct (py_slice_to 4 o) as [cut|] eqn:Hcut; [|done].
      intros [= <-] v. rewrite dict_get_set_eq. intros [= <-].
      by apply (py_slice_to_len 4 o).
    + intros [= <-] v. rewrite Hg. intros [= <-]. by exists n.
  - intros [= <-] v. by rewrite (dict_mem_get_none _ _ Hm).
Qed.

(** X3: whatever the model answers, a record that [generate_quiz_question]
    returns is a [dict], and an [options] in it has a length of at most
    four. *)
Theorem generate_quiz_question_returns_dict E txt w quiz :
  (generate_quiz_question E txt w).1 = Ok quiz →
  ∃ d, quiz = JObj d
       ∧ ∀ v, dict_get (cp "options") d = Some v →
              ∃ n, py_len v = Ok n ∧ (n ≤ 4)%nat.
Proof.
  destruct (chat_completion E (quiz_prompt txt)) as [content|e] eqn:Hc.
  - rewrite (generate_quiz_question_answered _ _ _ _ Hc). cbn zeta.
    destruct (parse_quiz _) as [q|e] eqn:Hp.
    + cbn. intros [= ->]. destruct (parse_quiz_object _ _ Hp) as [d ->].
      exists d. split; [done|]. by apply (parse_quiz_options_bound _ _ Hp).
    + destruct e; try done. cbn. intros [= <-]. by exists [].
  - unfold generate_quiz_question, bind. by rewrite Hc.
Qed.

Lemma generate_quiz_question_returns_dict_witness :
  ∃ d, (generate_quiz_question
          (env_replying (dq "{'options': ['a','b','c','d','e','f'], 'x': 1, }"))
          (cp "text") initial_world).1 = Ok (JObj d)
       ∧ ∃ n, py_len (JArr [JStr (cp "a"); JStr (cp "b"); JStr (cp "c"); JStr (cp "d")])
              = Ok n ∧ (n ≤ 4)%nat.
Proof.
  destruct (generate_quiz_question_returns_dict
              (env_replying (dq "{'options': ['a','b','c','d','e','f'], 'x': 1, }"))
              (cp "text") initial_world
              (JObj [(cp "options",
                      JArr [JStr (cp "a"); JStr (cp "b"); JStr (cp "c"); JStr (cp "d")]);
                     (cp "x", JInt 1)]) eq_refl) as (d & Hd & Hopt).
  exists d. split.
  - by rewrite <- Hd.
  - apply Hopt. by injection Hd as <-.
Defined.

(** X4: the cut to four is blind to the type of [options]: a string longer
    than four characters is replaced by its first four characters, and an
    object with more than four members makes the function raise. *)
Theorem quiz_options_string_or_object E txt content quiz w :
  chat_completion E (quiz_prompt txt) = Ok content →
  json_loads (sanitize_json_output (strip content)) = Some (JObj quiz) →
  (∀ s, dict_get (cp "options") quiz = Some (JStr s) → (4 < length s)%nat →
        (generate_quiz_question E txt w).1
        = Ok (JObj (dict_set (cp "options") (JStr (take 4 s)) quiz)))
  ∧ (∀ members, dict_get (cp "options") quiz = Some (JObj members) →
                (4 < length members)%nat →
                (generate_quiz_question E txt w).1 = Raise TypeError).
Proof.
  intros Hc Hl. rewrite (generate_quiz_question_answered _ _ _ _ Hc).
  unfold parse_quiz. rewrite Hl. cbn [py_contains py_getitem py_setitem].
  split.
  - intros s Hg Hlen. rewrite (dict_get_mem _ _ _ Hg), Hg. cbn [py_len].
    apply Nat.ltb_lt in Hlen. by rewrite Hlen.
  - intros members Hg Hlen. rewrite (dict_get_mem _ _ _ Hg), Hg. cbn [py_len].
    apply Nat.ltb_lt in Hlen. by rewrite Hlen.
Qed.

Lemma quiz_options_string_or_object_witness :
  (generate_quiz_question (env_replying (dq "{'options': 'abcdef'}"))
     (cp "text") initial_world).1
    = Ok (JObj [(cp "options", JStr (cp "abcd"))])
  ∧ (generate_quiz_question
       (env_replying (dq "{'options': {'a':1,'b':2,'c':3,'d':4,'e':5}}"))
       (cp "text") initial_world).1 = Raise TypeError.
Proof.
  split.
  - apply (proj1 (quiz_options_string_or_object
                    (env_replying (dq "{'options': 'abcdef'}")) (cp "text")
                    (dq "{'options': 'abcdef'}")
                    [(cp "options", JStr (cp "abcdef"))] initial_world
                    eq_refl eq_refl) (cp "abcdef")); [reflexivity|simpl; lia].
  - apply (proj2 (quiz_options_string_or_object
                    (env_replying (dq "{'options': {'a':1,'b':2,'c':3,'d':4,'e':5}}"))
                    (cp "text")
                    (dq "{'options': {'a':1,'b':2,'c':3,'d':4,'e':5}}")
                    [(cp "options",
                      JObj [(cp "a", JInt 1); (cp "b", JInt 2); (cp "c", JInt 3);
                            (cp "d", JInt 4); (cp "e", JInt 5)])]
                    initial_world eq_refl eq_refl)
             [(cp "a", JInt 1); (cp "b", JInt 2); (cp "c", JInt 3);
              (cp "d", JInt 4); (cp "e", JInt 5)]); [reflexivity|simpl; lia].
Defined.

(** ** Failures of [api_quiz] *)

(** X5: [api_quiz] lets nothing but an HTTP 500 out and then leaves the
    store untouched.  When the reply cannot be decoded, the 500 wraps the
    500 "Failed to generate quiz question." raised inside its own [try],
    and the reply has been printed. *)
Theorem api_quiz_failures E txt w :
  (∀ e w', api_quiz E txt w = (Raise e, w') →
           (∃ cause, e = HTTPException 500 (cp "Quiz generation failed: ") (Some cause))
           ∧ quiz_storage w' = quiz_storage w)
  ∧ (∀ content,
       chat_completion E (quiz_prompt txt) = Ok content →
       json_loads (sanitize_json_output (strip content)) = None →
       ∃ w', api_quiz E txt w
             = (Raise (HTTPException 500 (cp "Quiz generation failed: ")
                         (Some (HTTPException 500
                                  (cp "Failed to generate quiz question.") None))),
                w')
             ∧ stdout w'
               = stdout w ++ [cp "Error decoding response: " ++ strip content]
             ∧ quiz_storage w' = quiz_storage w).
Proof.
  split.
  - intros e w' Hrun. pose proof (api_quiz_run E txt w) as H.
    by rewrite Hrun in H.
  - intros content Hc Hl. unfold_quiz. rewrite Hc. mstep.
    unfold parse_quiz. rewrite Hl. mstep. cbn [py_not]. mstep.
    eexists. by split.
Qed.

Lemma api_quiz_failures_witness :
  ∃ w', api_quiz (env_replying (cp "I cannot help with that.")) (cp "text")
          initial_world
        = (Raise (HTTPException 500 (cp "Quiz generation failed: ")
                    (Some (HTTPException 500
                             (cp "Failed to generate quiz question.") None))),
           w')
        ∧ quiz_storage w' = ∅.
Proof.
  destruct (proj2 (api_quiz_failures (env_replying (cp "I cannot help with that."))
                     (cp "text") initial_world)
              (cp "I cannot help with that.") eq_refl eq_refl)
    as (w' & Hrun & _ & Hst).
  exists w'. by split.
Defined.

(** ** [upload_audio] beyond its calls *)

(** X6: [upload_audio] does not look at the quiz it gets.  When the quiz
    reply cannot be decoded and every service succeeds, the request
    succeeds all the same, with the empty record in its answer and in the
    new row. *)
Theorem upload_audio_persists_empty_quiz E filename content w
    transcript summary tk_reply quiz_reply :
  write_upload E (upload_path filename) content = Ok tt →
  whisper_transcribe E content = Ok transcript →
  chat_completion E (summary_prompt transcript) = Ok summary →
  chat_completion E (takeaways_prompt transcript) = Ok tk_reply →
  chat_completion E (quiz_prompt transcript) = Ok quiz_reply →
  json_loads (sanitize_json_output (strip quiz_reply)) = None →
  (∀ subject body, smtp_sendmail E subject body = Ok tt) →
  (∀ a b c d, sqlite_insert E a b c d = Ok tt) →
  ∃ p w',
    upload_audio E filename content w = (Ok p, w')
    ∧ p_quiz p = JObj []
    ∧ p_transcript p = transcript
    ∧ p_summary p = summary
    ∧ podcast_data w'
      = podcast_data w ++
        [{| row_id := next_row_id (podcast_data w);
            row_transcript := transcript;
            row_summary := summary;
            row_takeaways := json_dumps E (JArr (map JStr (p_takeaways p)));
            row_quiz := json_dumps E (JObj []) |}].
Proof.
  intros Hw Ht Hs Hk Hq Hl Hmail Hdb.
  unfold_program. rewrite Hw. mstep. rewrite Ht. mstep. rewrite Hs. mstep.
  rewrite Hk. mstep. rewrite Hq. mstep. unfold parse_quiz. rewrite Hl. mstep.
  rewrite Hmail. mstep. rewrite Hdb. mstep.
  eexists _, _. split; [reflexivity|]. by cbn.
Qed.

Lemma upload_audio_persists_empty_quiz_witness :
  ∃ p w',
    upload_audio (env_replying (cp "- one")) (cp "a.mp3") (cp "RIFF") initial_world
    = (Ok p, w')
    ∧ p_quiz p = JObj []
    ∧ map row_quiz (podcast_data w') = [cp "{}"].
Proof.
  destruct (upload_audio_persists_empty_quiz
              (env_replying (cp "- one")) (cp "a.mp3") (cp "RIFF") initial_world
              (cp "hello world") (cp "- one") (cp "- one") (cp "- one")
              eq_refl eq_refl eq_refl eq_refl eq_refl eq_refl
              (fun _ _ => eq_refl) (fun _ _ _ _ => eq_refl))
    as (p & w' & Hrun & Hquiz & _ & _ & Htbl).
  exists p, w'. split; [exact Hrun|]. split; [exact Hquiz|].
  rewrite Htbl. reflexivity.
Defined.

(** X7: after [upload_audio], whether it succeeded or failed, no file is
    left at the upload's path, and every other file is as before. *)
Theorem upload_audio_removes_upload E filename content w :
  files (upload_audio E filename content w).2
  = delete (upload_path filename) (files w).
Proof.
  unfold_program. mstep. repeat (oracle; mstep).
  all: cbn [files snd].
  all: try (by rewrite delete_insert_eq).
  all: try (symmetry; by apply delete_id).
  all: done.
Qed.

(** ** Takeaways *)










(** ** The other endpoints *)

Ltac unfold_endpoints :=
  unfold get_key_takeaways, summarize_podcast, send_email_api, get_latest_podcast,
    get_podcast_by_id_endpoint, generate_key_takeaways, generate_summary,
    send_detail, send_email, try_except, bind, lift, ret, raise, external, print.

(** X9: the endpoint [get_key_takeaways] answers with a list that is not
    empty or with an HTTP 500.  A reply without a line that starts with a
    hyphen is such a failure: the 500 "Failed to extract key takeaways." of
    its own [try] is caught and wrapped. *)
Theorem get_key_takeaways_endpoint E transcript w :
  (match (get_key_takeaways E transcript w).1 with
   | Ok l => l ≠ []
   | Raise e => ∃ cause, e = HTTPException 500 (cp "Error: ") (Some cause)
   end)
  ∧ (∀ content,
       chat_completion E (takeaways_prompt transcript) = Ok content →
       filter (fun line => text_prefixb (cp "-") line = true)
              (split_on newline (strip content)) = [] →
       (get_key_takeaways E transcript w).1
       = Raise (HTTPException 500 (cp "Error: ")
                  (Some (HTTPException 500
                           (cp "Failed to extract key takeaways.") None)))).
Proof.
  split.
  - unfold_endpoints.
    destruct (chat_completion E (takeaways_prompt transcript)) as [content|e];
      cbn [fst snd]; [|by eexists].
    destruct (map _ _) as [|x l]; cbn; [by eexists|done].
  - intros content Hc Hnone. unfold_endpoints. rewrite Hc. cbn [fst snd].
    by rewrite Hnone.
Qed.

Lemma get_key_takeaways_endpoint_witness :
  (get_key_takeaways (env_replying (cp "1. First" ++ [newline] ++ cp "2. Second"))
     (cp "text") initial_world).1
  = Raise (HTTPException 500 (cp "Error: ")
             (Some (HTTPException 500
                      (cp "Failed to extract key takeaways.") None))).
Proof.
  apply (proj2 (get_key_takeaways_endpoint
                  (env_replying (cp "1. First" ++ [newline] ++ cp "2. Second"))
                  (cp "text") initial_world)
           (cp "1. First" ++ [newline] ++ cp "2. Second")); reflexivity.
Defined.

(** X10: in [send_email_api] the summary is generated outside the [try]:
    a failure of the model leaves the endpoint as it is, with no mail sent,
    while a failure of the mail server is wrapped in an HTTP 500. *)
Theorem send_email_api_failures E transcript w :
  (∀ e, chat_completion E (summary_prompt transcript) = Raise e →
        send_email_api E transcript w
        = (Raise e,
           (external (Chat Summarization (summary_prompt transcript))
                     (Raise e : result text) w).2))
  ∧ (∀ summary e,
       chat_completion E (summary_prompt transcript) = Ok summary →
       (∀ subject body, smtp_sendmail E subject body = Raise e) →
       (send_email_api E transcript w).1
       = Raise (HTTPException 500 (cp "Error: ") (Some e))).
Proof.
  split.
  - intros e He. unfold_endpoints. by rewrite He.
  - intros summary e Hs Hmail. unfold_endpoints. rewrite Hs. cbn [fst snd].
    by rewrite Hmail.
Qed.

Lemma send_email_api_failures_witness :
  (send_email_api env_model_down (cp "text") initial_world).1
    = Raise (ServiceError (cp "503"))
  ∧ map (fun c => step_of c.1)
        (calls (send_email_api env_model_down (cp "text") initial_world).2)
    = [Summarization]
  ∧ (send_email_api env_mail_down (cp "text") initial_world).1
    = Raise (HTTPException 500 (cp "Error: ")
               (Some (ServiceError (cp "connection refused")))).
Proof.
  destruct (send_email_api_failures env_model_down (cp "text") initial_world)
    as [Hmodel _].
  destruct (send_email_api_failures env_mail_down (cp "text") initial_world)
    as [_ Hmail].
  rewrite (Hmodel (ServiceError (cp "503")) eq_refl).
  split; [reflexivity|]. split; [reflexivity|].
  apply (Hmail (cp "a summary")); reflexivity.
Defined.

Lemma filter_none_by_id tbl podcast_id :
  Forall (fun r => row_id r ≠ podcast_id) tbl →
  filter (fun r => bool_decide (row_id r = podcast_id)) tbl = [].
Proof.
  induction 1 as [|r tbl Hr _ IH]; [done|].
  rewrite filter_cons_False; [done|]. by intros ?%bool_decide_unpack.
Qed.

(** X11: [get_latest_podcast] and the endpoint [get_podcast_by_id] never
    answer 404: the 404 "Podcast not found." is raised inside their [try]
    and comes out as an HTTP 500 that wraps it.  Every failure of the two
    is such a 500, and neither changes the state. *)
Theorem podcast_endpoints_not_found w podcast_id :
  (podcast_data w = [] →
   get_latest_podcast w
   = (Raise (HTTPException 500 (cp "Error: ")
               (Some (HTTPException 404 (cp "Podcast not found.") None))), w))
  ∧ (Forall (fun r => row_id r ≠ podcast_id) (podcast_data w) →
     get_podcast_by_id_endpoint podcast_id w
     = (Raise (HTTPException 500 (cp "Error: ")
                 (Some (HTTPException 404 (cp "Podcast not found.") None))), w))
  ∧ (∀ e w', get_latest_podcast w = (Raise e, w')
             ∨ get_podcast_by_id_endpoint podcast_id w = (Raise e, w') →
             w' = w ∧ ∃ cause, e = HTTPException 500 (cp "Error: ") (Some cause)).
Proof.
  split; [|split].
  - intros Hempty. unfold_endpoints. by rewrite Hempty.
  - intros Hnone. unfold_endpoints. unfold get_podcast_by_id.
    by rewrite (filter_none_by_id _ _ Hnone).
  - intros e w'. unfold_endpoints. intros [H|H].
    + destruct (get_latest_podcast_data (podcast_data w)) as [[p|]|e0];
        cbn in H; inversion H; eauto.
    + destruct (get_podcast_by_id (podcast_data w) podcast_id) as [[p|]|e0];
        cbn in H; inversion H; eauto.
Qed.

Lemma podcast_endpoints_not_found_witness :
  get_latest_podcast initial_world
    = (Raise (HTTPException 500 (cp "Error: ")
                (Some (HTTPException 404 (cp "Podcast not found.") None))),
       initial_world)
  ∧ get_podcast_by_id_endpoint 7 (world_with_table one_row)
    = (Raise (HTTPException 500 (cp "Error: ")
                (Some (HTTPException 404 (cp "Podcast not found.") None))),
       world_with_table one_row).
Proof.
  split.
  - apply (proj1 (podcast_endpoints_not_found initial_world 0)). reflexivity.
  - apply (proj1 (proj2 (podcast_endpoints_not_found (world_with_table one_row) 7))).
    repeat constructor. by vm_compute.
Defined.

(** ** The table: saving and reading back *)

Lemma next_row_id_above tbl : Forall (fun r => (row_id r < next_row_id tbl)%Z) tbl.
Proof.
  unfold next_row_id. induction tbl as [|r tbl IH]; [constructor|].
  simpl. constructor; [lia|].
  eapply Forall_impl; [exact IH|]. intros x Hx. simpl in Hx. lia.
Qed.

(** Rows with smaller ids sort behind a row that is already first. *)
Lemma order_by_id_desc_head tbl r :
  Forall (fun x => (row_id x < row_id r)%Z) tbl →
  ∃ rest, foldr insert_desc [r] tbl = r :: rest.
Proof.
  induction 1 as [|x tbl Hx _ [rest IH]]; simpl; [by exists []|].
  rewrite IH. simpl.
  destruct (Z.ltb_spec (row_id r) (row_id x)); [lia|]. by eexists.
Qed.

Lemma order_by_id_desc_snoc tbl r :
  Forall (fun x => (row_id x < row_id r)%Z) tbl →
  ∃ rest, order_by_id_desc (tbl ++ [r]) = r :: rest.
Proof.
  intros H. unfold order_by_id_desc. rewrite foldr_app. simpl.
  by apply order_by_id_desc_head.
Qed.

Lemma filter_by_id_snoc tbl r :
  Forall (fun x => (row_id x < row_id r)%Z) tbl →
  filter (fun x => bool_decide (row_id x = row_id r)) (tbl ++ [r]) = [r].
Proof.
  intros H. rewrite filter_app.
  rewrite (filter_none_by_id tbl (row_id r)).
  - rewrite filter_cons_True; [done|]. by apply bool_decide_pack.
  - eapply Forall_impl; [exact H|]. intros x Hx. simpl in Hx. lia.
Qed.

(** X12: a podcast that [save_podcast_data] has written is the one
    [get_latest_podcast_data] reads back, and [get_podcast_by_id] finds it
    under the id it was given, one more than the largest id before: both
    return its summary and its takeaways as decoded from the stored JSON
    text (or raise [JSONDecodeError] if that text does not decode).  When
    the INSERT fails the table is unchanged. *)
Theorem save_then_read_back E transcript summ tks quiz w :
  let stored := json_dumps E (JArr (map JStr tks)) in
  let read :=
    match json_loads stored with
    | Some j => Ok (Some {| summary := SqlText summ; takeaways := j |})
    | None => Raise JSONDecodeError
    end in
  (sqlite_insert E transcript summ stored (json_dumps E quiz) = Ok tt →
   ∃ w', save_podcast_data E transcript summ tks quiz w = (Ok tt, w')
         ∧ get_latest_podcast_data (podcast_data w') = read
         ∧ get_podcast_by_id (podcast_data w') (next_row_id (podcast_data w)) = read
         ∧ length (podcast_data w') = S (length (podcast_data w)))
  ∧ (∀ e, sqlite_insert E transcript summ stored (json_dumps E quiz) = Raise e →
          ∃ w', save_podcast_data E transcript summ tks quiz w = (Raise e, w')
                ∧ podcast_data w' = podcast_data w).
Proof.
  intros stored read. split.
  - intros Hins. unfold save_podcast_data, bind, external, set_podcast_data.
    fold stored. rewrite Hins. cbn [fst snd podcast_data quiz_storage files stdout calls].
    eexists. split; [reflexivity|]. cbn [podcast_data].
    set (new := {| row_id := next_row_id (podcast_data w);
                   row_transcript := transcript; row_summary := summ;
                   row_takeaways := stored; row_quiz := json_dumps E quiz |}).
    pose proof (next_row_id_above (podcast_data w)) as Habove.
    change (next_row_id (podcast_data w)) with (row_id new) in Habove |- *.
    split; [|split].
    + unfold get_latest_podcast_data.
      destruct (order_by_id_desc_snoc _ _ Habove) as [rest ->].
      unfold podcast_of, unpack2, loads_column. cbn [row_summary row_takeaways new].
      unfold read. by destruct (json_loads stored).
    + unfold get_podcast_by_id. rewrite (filter_by_id_snoc _ _ Habove).
      unfold podcast_of, unpack2, loads_column. cbn [row_summary row_takeaways new].
      unfold read. by destruct (json_loads stored).
    + rewrite length_app. simpl. lia.
  - intros e Hins. unfold save_podcast_data, bind, external, set_podcast_data.
    fold stored. rewrite Hins. eexists. by split.
Qed.

Lemma save_then_read_back_witness :
  ∃ w', save_podcast_data (env_dumping (dq "['be kind']")) (cp "hello world")
          (cp "greeting") [cp "be kind"] (JObj []) (world_with_table one_row)
        = (Ok tt, w')
        ∧ get_latest_podcast_data (podcast_data w')
          = Ok (Some {| summary := SqlText (cp "greeting");
                        takeaways := JArr [JStr (cp "be kind")] |})
        ∧ get_podcast_by_id (podcast_data w') 2
          = Ok (Some {| summary := SqlText (cp "greeting");
                        takeaways := JArr [JStr (cp "be kind")] |}).
Proof.
  destruct (proj1 (save_then_read_back (env_dumping (dq "['be kind']"))
                     (cp "hello world") (cp "greeting") [cp "be kind"] (JObj [])
                     (world_with_table one_row)) eq_refl)
    as (w' & Hrun & Hlatest & Hid & _).
  exists w'. split; [exact Hrun|]. split; [exact Hlatest|exact Hid].
Defined.

(** ** The daily mail *)

(** X13: [send_daily_takeaway] always picks the entry at index 1.  With no
    podcast or an empty list of takeaways it prints a line and sends
    nothing; with a single takeaway it raises [IndexError] and sends
    nothing; with two or more it mails the second one and never the
    first. *)
Theorem send_daily_takeaway_index E repr w data :
  get_latest_podcast_data (podcast_data w) = Ok (Some data) →
  (takeaways data = JArr [] →
   ∃ w', send_daily_takeaway E repr w = (Returned tt, w')
         ∧ calls w' = calls w
         ∧ stdout w' = stdout w ++ [cp "No podcast data available for email."])
  ∧ (∀ only, takeaways data = JArr [only] →
             send_daily_takeaway E repr w = (RaisedIndexError, w))
  ∧ (∀ first second rest,
       takeaways data = JArr (first :: JStr second :: rest) →
       ∃ w', snd (send_daily_takeaway E repr w) = w'
             ∧ calls w'
               = calls w
                 ++ [(SendMail daily_subject (daily_body second),
                      is_ok (smtp_sendmail E daily_subject (daily_body second)))]).
Proof.
  intros Hdata. unfold send_daily_takeaway. rewrite Hdata. split; [|split].
  - intros ->. cbn. eexists. by split.
  - by intros only ->.
  - intros first second rest ->. cbn [py_not py_index1].
    unfold send_email, bind, external, print.
    destruct (smtp_sendmail E daily_subject (daily_body second)) as [[]|e];
      cbn; eexists; by split.
Qed.

Lemma send_daily_takeaway_index_witness :
  send_daily_takeaway (env_replying []) (fun _ => [])
    (world_with_table (table_with_takeaways (dq "['be kind']")))
  = (RaisedIndexError, world_with_table (table_with_takeaways (dq "['be kind']")))
  ∧ map fst (calls (send_daily_takeaway (env_replying []) (fun _ => [])
                      (world_with_table
                         (table_with_takeaways (dq "['be kind', 'stay curious']")))).2)
    = [SendMail daily_subject (daily_body (cp "stay curious"))].
Proof.
  split.
  - apply (proj1 (proj2 (send_daily_takeaway_index (env_replying []) (fun _ => [])
                           (world_with_table (table_with_takeaways (dq "['be kind']")))
                           {| summary := SqlText (cp "greeting");
                              takeaways := JArr [JStr (cp "be kind")] |} eq_refl))
             (JStr (cp "be kind"))).
    reflexivity.
  - destruct (proj2 (proj2 (send_daily_takeaway_index (env_replying []) (fun _ => [])
                (world_with_table
                   (table_with_takeaways (dq "['be kind', 'stay curious']")))
                {| summary := SqlText (cp "greeting");
                   takeaways := JArr [JStr (cp "be kind"); JStr (cp "stay curious")] |}
                eq_refl))
              (JStr (cp "be kind")) (cp "stay curious") [] eq_refl)
      as (w' & <- & Hcalls).
    rewrite Hcalls. reflexivity.
Defined.

(** ** Submitting answers *)

Lemma lstrip_spaces_app l x : forallb isspace l = true → lstrip (l ++ x) = lstrip x.
Proof.
  induction l as [|c l IH]; [done|]. simpl.
  intros [-> Hl]%andb_true_iff. by apply IH.
Qed.

Lemma lstrip_spaces l : forallb isspace l = true → lstrip l = [].
Proof.
  intros H. rewrite <- (app_nil_r l). by rewrite lstrip_spaces_app.
Qed.

Lemma rstrip_app_spaces x r : forallb isspace r = true → rstrip (x ++ r) = rstrip x.
Proof.
  intros H. unfold rstrip. rewrite rev_app_distr, lstrip_spaces_app; [done|].
  rewrite forallb_forall in *. intros c Hc. apply H. by apply in_rev.
Qed.

Lemma lstrip_app_spaces a r :
  forallb isspace r = true → rstrip (lstrip (a ++ r)) = rstrip (lstrip a).
Proof.
  intros Hr. induction a as [|c a IH]; simpl.
  - by rewrite lstrip_spaces.
  - destruct (isspace c); [done|].
    change (c :: a ++ r) with ((c :: a) ++ r).
    by rewrite (rstrip_app_spaces (c :: a) r).
Qed.

(** [strip] does not see white space put around a text. *)
Lemma strip_padded l a r :
  forallb isspace l = true → forallb isspace r = true →
  strip (l ++ a ++ r) = strip a.
Proof.
  intros Hl Hr. unfold strip. rewrite lstrip_spaces_app by done.
  by apply lstrip_app_spaces.
Qed.

(** X14: white space around the submitted answer never changes what
    [submit_quiz_answer] returns. *)
Theorem submit_quiz_answer_ignores_padding E quiz_id answer l r w :
  forallb isspace l = true → forallb isspace r = true →
  submit_quiz_answer E quiz_id (l ++ answer ++ r) w
  = submit_quiz_answer E quiz_id answer w.
Proof.
  intros Hl Hr. unfold submit_quiz_answer. by rewrite strip_padded.
Qed.

Lemma submit_quiz_answer_ignores_padding_witness :
  submit_quiz_answer (env_replying []) (cp "1")
    ([9; 32] ++ cp "Paris" ++ [32; 10; 160])
    (world_with_quiz (JObj [(cp "correct_answer", JStr (cp "paris"))]))
  = (Ok {| v_quiz_id := cp "1"; correct := true;
           correct_answer := JStr (cp "paris") |},
     world_with_quiz (JObj [(cp "correct_answer", JStr (cp "paris"))])).
Proof.
  etrans.
  - exact (submit_quiz_answer_ignores_padding (env_replying []) (cp "1")
             (cp "Paris") [9; 32] [32; 10; 160]
             (world_with_quiz (JObj [(cp "correct_answer", JStr (cp "paris"))]))
             eq_refl eq_refl).
  - by vm_compute.
Defined.

(** X15: [submit_quiz_answer] only reads: whatever it returns or raises,
    the state is as before.  A stored [correct_answer] that is not a string
    (a number, a list, ...) makes it raise [AttributeError]. *)
Theorem submit_quiz_answer_reads_only E quiz_id answer w :
  (submit_quiz_answer E quiz_id answer w).2 = w
  ∧ (∀ quiz v,
       quiz_storage w !! quiz_id = Some (JObj quiz) →
       dict_get (cp "correct_answer") quiz = Some v →
       (∀ s, v ≠ JStr s) →
       (submit_quiz_answer E quiz_id answer w).1 = Raise AttributeError).
Proof.
  split; [apply submit_quiz_answer_world|].
  intros quiz v Hsome Hget Hv. unfold submit_quiz_answer. rewrite Hsome.
  destruct quiz as [|kv quiz]; [done|].
  unfold_quiz. cbn [py_not py_getitem]. rewrite Hget.
  destruct v; try done. by destruct (Hv s).
Qed.

Lemma submit_quiz_answer_reads_only_witness :
  (submit_quiz_answer (env_replying []) (cp "1") (cp "2")
     (world_with_quiz (JObj [(cp "correct_answer", JInt 2)]))).1
  = Raise AttributeError.
Proof.
  apply (proj2 (submit_quiz_answer_reads_only (env_replying []) (cp "1") (cp "2")
                  (world_with_quiz (JObj [(cp "correct_answer", JInt 2)])))
           [(cp "correct_answer", JInt 2)] (JInt 2)); by vm_compute.
Defined.
